(** * Cross-reference processor of pydoc-markdown

    A shallow embedding of [pydoc_markdown/contrib/processors/crossref.py]
    (class [CrossrefProcessor]) and of the [Resolver] interface of
    [pydoc_markdown/interfaces.py], followed by the properties of the
    processor.

    Conventions of the embedding:
    - a Python [str] is a [string]; a character is an [ascii] code, and
      what the interpreter decides for codes above 127 is a parameter
      ([Host]);
    - [Optional[T]] is [option T];
    - a resolver is external code: a call either returns or raises, which is
      the type [answer];
    - the [unresolved] dictionary is an association list in insertion order
      (a Python [dict] iterates in insertion order);
    - in-place mutation of docstrings is state passing: the traversal returns
      the forest with the rewritten docstrings. *)

From Stdlib Require Import List String Ascii Bool Arith Lia DecimalString.
Import ListNotations.
Open Scope string_scope.

(** ** What the interpreter and third-party packages supply *)

(** [\w] and [\d] of Python's [re] follow the Unicode database for characters
    above code 127, and [tomli_w] is a third-party package: none of them is
    part of the repository. They are parameters of the development.
    [tomli_w_dumps_text s] stands for [tomli_w.dumps({"text": s})]. *)
Class Host := {
  wide_word : ascii -> bool;
  wide_digit : ascii -> bool;
  tomli_w_dumps_text : string -> string
}.

(** ** Strings *)

Module Str.

Definition code (c : ascii) : nat := nat_of_ascii c.

Definition between (lo hi : nat) (c : ascii) : bool :=
  (lo <=? code c)%nat && (code c <=? hi)%nat.

(** [bool(s)] for a string. *)
Definition truthy (s : string) : bool :=
  match s with EmptyString => false | String _ _ => true end.

(** [s.endswith(".")] *)
Fixpoint endswith_dot (s : string) : bool :=
  match s with
  | EmptyString => false
  | String c EmptyString => Ascii.eqb c "."
  | String _ s' => endswith_dot s'
  end.

(** [s[:-1]] *)
Fixpoint drop_last (s : string) : string :=
  match s with
  | EmptyString => EmptyString
  | String _ EmptyString => EmptyString
  | String c s' => String c (drop_last s')
  end.

(** [s.lstrip(c)] for a one-character set. *)
Fixpoint lstrip (c : ascii) (s : string) : string :=
  match s with
  | String d s' => if Ascii.eqb d c then lstrip c s' else s
  | EmptyString => EmptyString
  end.

(** [sep.join(l)] *)
Definition join (sep : string) (l : list string) : string :=
  String.concat sep l.

(** [c in s] *)
Fixpoint mem (c : ascii) (s : string) : bool :=
  match s with
  | EmptyString => false
  | String d s' => Ascii.eqb d c || mem c s'
  end.

(** The longest prefix of [s] whose characters satisfy [p], and what
    follows it: a greedy [[...]*]. *)
Fixpoint span (p : ascii -> bool) (s : string) : string * string :=
  match s with
  | EmptyString => (EmptyString, EmptyString)
  | String c s' =>
      if p c then let (a, b) := span p s' in (String c a, b)
      else (EmptyString, s)
  end.

Definition nl : string := String (ascii_of_nat 10) EmptyString.

(** The last character of [s], or [d] when [s] is empty. *)
Fixpoint last_or (d : option ascii) (s : string) : option ascii :=
match s with
| EmptyString => d
| String c s' => last_or (Some c) s'
end.

(** [all(p(c) for c in s)] *)
Fixpoint forallb_chars (p : ascii -> bool) (s : string) : bool :=
match s with
| EmptyString => true
| String c s' => p c && forallb_chars p s'
end.

(** [str(n)] for a natural number. *)
Definition of_nat (n : nat) : string :=
  NilZero.string_of_uint (Nat.to_uint n).

End Str.

(** ** The reference grammar

    [\B#(?P<ref>[\w\d\._]+)(?P<parens>\(\))?(?P<trailing>#[\w\d\._]+)?] *)

Section Grammar.
Context {host : Host}.

Definition is_ascii (c : ascii) : bool := (Str.code c <? 128)%nat.

(** [\w] *)
Definition is_word (c : ascii) : bool :=
  if is_ascii c then
    Str.between 48 57 c || Str.between 65 90 c || Str.between 97 122 c
    || Ascii.eqb c "_"
  else wide_word c.

(** [\d] *)
Definition is_digit (c : ascii) : bool :=
  if is_ascii c then Str.between 48 57 c else wide_digit c.

(** [[\w\d\._]] *)
Definition ref_char (c : ascii) : bool :=
  is_word c || is_digit c || Ascii.eqb c "." || Ascii.eqb c "_".

(** [\B] at a position, given the character before it (if any) and the
    text from it on: both sides are word characters or neither is. *)
Definition non_boundary (prev : option ascii) (s : string) : bool :=
  Bool.eqb
    (match prev with Some p => is_word p | None => false end)
    (match s with String c _ => is_word c | EmptyString => false end).

(** The groups of a match object; an optional group that took no part in
    the match is [None]. *)
Record Match := {
  g_ref : string;
  g_parens : option string;
  g_trailing : option string
}.

(** [m.group(name) or ""] *)
Definition or_empty (g : option string) : string :=
  match g with Some s => s | None => EmptyString end.

(** [m.group(0)]: the text the match covers. *)
Definition group0 (m : Match) : string :=
  "#" ++ g_ref m ++ or_empty (g_parens m) ++ or_empty (g_trailing m).

(** [(?P<parens>\(\))?] *)
Definition opt_parens (s : string) : option string * string :=
  match s with
  | String a (String b r) =>
      if Ascii.eqb a "(" && Ascii.eqb b ")" then (Some "()", r)
      else (None, s)
  | _ => (None, s)
  end.

(** [(?P<trailing>#[\w\d\._]+)?] *)
Definition opt_trailing (s : string) : option string * string :=
  match s with
  | String a r =>
      if Ascii.eqb a "#" then
        match Str.span ref_char r with
        | (EmptyString, _) => (None, s)
        | (t, r') => (Some (String "#" t), r')
        end
      else (None, s)
  | EmptyString => (None, s)
  end.

(** The pattern tried at one position. Every quantifier is greedy and
    everything after [ref] is optional, so the first alternative the
    matcher tries is the one it returns. *)
Definition match_at (prev : option ascii) (s : string) : option Match :=
  if non_boundary prev s then
    match s with
    | String a s1 =>
        if Ascii.eqb a "#" then
          match Str.span ref_char s1 with
          | (EmptyString, _) => None
          | (r, s2) =>
              let (p, s3) := opt_parens s2 in
              let (t, _) := opt_trailing s3 in
              Some {| g_ref := r; g_parens := p; g_trailing := t |}
          end
        else None
    | EmptyString => None
    end
  else None.

(** One step of the scan of [re.sub]: an unmatched character, copied to
    the output, or a match, given to the replacement function. *)
Inductive piece :=
| Lit (c : ascii)
| Hit (m : Match).

(** The left-to-right scan for non-overlapping matches. [skip] counts the
    characters still covered by the last match; [prev] is the character
    before the position, in the subject (not in the output). *)
Fixpoint scan (skip : nat) (prev : option ascii) (s : string) : list piece :=
  match s with
  | EmptyString => []
  | String c s' =>
      match skip with
      | S k => scan k (Some c) s'
      | O =>
          match match_at prev s with
          | Some m => Hit m :: scan (String.length (group0 m) - 1) (Some c) s'
          | None => Lit c :: scan 0 (Some c) s'
          end
      end
  end.

Definition finditer (s : string) : list piece := scan 0 None s.

(** The matches of a scan, in order. *)
Definition hits (ps : list piece) : list Match :=
  flat_map (fun p => match p with Hit m => [m] | Lit _ => [] end) ps.

End Grammar.

(** ** The API tree and the resolver interfaces *)

(** A [docspec] API object: its name, its docstring (absent, or the text of
    [docstring.content]) and its members (empty for an object that has
    none). *)
#[warnings="-register-all"]
Inductive ApiObject :=
| Obj (name : string) (docstring : option string) (members : list ApiObject).

Definition obj_name (o : ApiObject) : string :=
  let (n, _, _) := o in n.
Definition obj_docstring (o : ApiObject) : option string :=
  let (_, d, _) := o in d.
Definition obj_members (o : ApiObject) : list ApiObject :=
  let (_, _, ms) := o in ms.

(** An object as the processor sees it: together with [x.name for x in
    o.path], the names from the root module down to the object. [path]
    follows the parents of an object in [docspec]; here the traversal
    builds it from the names of the ancestors. *)
Record Located := {
  loc_path : list string;
  loc_obj : ApiObject
}.

Inductive exn := Exception (msg : string).

(** What a call of external code does: it returns a value or [None], or it
    raises. *)
Inductive answer (A : Type) :=
| Returns (r : option A)
| Raises (e : exn).
Arguments Returns {A} r.
Arguments Raises {A} e.

(** [interfaces.Resolver] *)
Record Resolver := {
  resolve_ref : Located -> string -> answer string
}.

(** Modelled from the spec: the interface [ResolverV2] that [crossref.py]
    imports from [pydoc_markdown.interfaces] is not in the file of that
    name among the sources, and neither is [ApiSuite] of
    [pydoc_markdown.util.docspec]. The spec gives the typed resolver as
    [resolve(suite, scope, ref) -> ApiObject|absent], the suite being the
    whole tree: here the suite is the list of modules given to [process],
    and the object returned comes with its path, which is all that
    [handler] reads of it. *)
Record ResolverV2 := {
  resolve_reference : list ApiObject -> Located -> string -> answer Located
}.

(** The dataclass [CrossrefProcessor]. *)
Record CrossrefProcessor := {
  resolver_v2 : option ResolverV2
}.

(** ** State and effects *)

(** [t.Dict[str, t.List[str]]], in insertion order. *)
Definition Report := list (string * list string).

Module Dict.

Fixpoint get (k : string) (d : Report) : option (list string) :=
  match d with
  | [] => None
  | (k', v) :: d' => if String.eqb k' k then Some v else get k d'
  end.

(** [d.setdefault(k, []).append(x)] *)
Fixpoint setdefault_append (k x : string) (d : Report) : Report :=
  match d with
  | [] => [(k, [x])]
  | (k', v) :: d' =>
      if String.eqb k' k then (k', (v ++ [x])%list) :: d'
      else (k', v) :: setdefault_append k x d'
  end.

(** [d.get(k, [])] *)
Definition get_list (k : string) (d : Report) : list string :=
  match get k d with Some v => v | None => [] end.

End Dict.

(** The calls made to the resolvers: the scope and the name looked up. *)
Inductive call :=
| CallV2 (node : Located) (ref : string)
| CallBasic (node : Located) (ref : string).

Definition call_ref (c : call) : string :=
  match c with CallV2 _ r => r | CallBasic _ r => r end.

(** What a run changes besides the docstrings: the [unresolved] dictionary
    and the log of resolver calls, oldest first. *)
Record State := {
  unresolved : Report;
  calls : list call
}.

Definition initial : State := {| unresolved := []; calls := [] |}.

Inductive result (A : Type) :=
| Ok (a : A)
| Raised (e : exn).
Arguments Ok {A} a.
Arguments Raised {A} e.

(** A computation that reads and writes the state and may raise; the state
    reached when an exception is raised is kept. *)
Definition M (A : Type) : Type := State -> result A * State.

Definition ret {A} (a : A) : M A := fun st => (Ok a, st).

Definition bind {A B} (c : M A) (k : A -> M B) : M B :=
  fun st =>
    match c st with
    | (Ok a, st') => k a st'
    | (Raised e, st') => (Raised e, st')
    end.

Declare Scope crossref_scope.
Delimit Scope crossref_scope with crossref.
Notation "x <- c ;; k" := (bind c (fun x => k))
  (at level 61, c at next level, right associativity) : crossref_scope.
Notation "c ;; k" := (bind c (fun _ => k))
  (at level 61, right associativity) : crossref_scope.
Open Scope crossref_scope.

(** [unresolved.setdefault(uid, []).append(ref)] *)
Definition record_unresolved (uid ref : string) : M unit :=
  fun st =>
    (Ok tt, {| unresolved := Dict.setdefault_append uid ref (unresolved st);
               calls := calls st |}).

Definition log_call (c : call) : M unit :=
  fun st => (Ok tt, {| unresolved := unresolved st; calls := (calls st ++ [c])%list |}).

Definition lift_answer {A} (a : answer A) : M (option A) :=
  fun st =>
    match a with
    | Returns r => (Ok r, st)
    | Raises e => (Raised e, st)
    end.

(** [resolver.resolve_ref(node, ref)] *)
Definition call_basic (r : Resolver) (node : Located) (ref : string)
  : M (option string) :=
  log_call (CallBasic node ref) ;;
  lift_answer (resolve_ref r node ref).

(** [self.resolver_v2.resolve_reference(suite, node, ref)] *)
Definition call_v2 (r : ResolverV2) (suite : list ApiObject) (node : Located)
    (ref : string) : M (option Located) :=
  log_call (CallV2 node ref) ;;
  lift_answer (resolve_reference r suite node ref).

(** ** The processor *)

Section Processor.
Context {host : Host}.

(** The first lines of [handler]: the groups of the match, the [#] taken
    off [trailing], and the dot taken off the end of [trailing] or else,
    without parentheses, off the end of [ref]. *)
Record Token := {
  ref : string;
  parens : string;
  trailing : string;
  has_trailing_dot : bool
}.

Definition token_of (m : Match) : Token :=
  let ref := g_ref m in
  let parens := or_empty (g_parens m) in
  let trailing := Str.lstrip "#" (or_empty (g_trailing m)) in
  if Str.truthy trailing && Str.endswith_dot trailing then
    {| ref := ref; parens := parens; trailing := Str.drop_last trailing;
       has_trailing_dot := true |}
  else if negb (Str.truthy parens) && Str.endswith_dot ref then
    {| ref := Str.drop_last ref; parens := parens; trailing := trailing;
       has_trailing_dot := true |}
  else
    {| ref := ref; parens := parens; trailing := trailing;
       has_trailing_dot := false |}.

(** [text = ref + parens + trailing] *)
Definition text_of (t : Token) : string :=
  ref t ++ parens t ++ trailing t.

(** [".".join(x.name for x in o.path)] *)
Definition dotted (o : Located) : string := Str.join "." (loc_path o).

Definition link_directive (target : Located) (text : string) : string :=
  "{@link pydoc:" ++ dotted target ++ " :with " ++ tomli_w_dumps_text text
  ++ "}".

Definition hyperlink (text href : string) : string :=
  "[`" ++ text ++ "`](" ++ href ++ ")".

Definition inline_code (text : string) : string :=
  "`" ++ text ++ "`".

(** The [if self.resolver_v2: ... elif resolver: ...] statement: the
    value of [result] after it. A resolver that is there is true, and so
    is a target object; [if href:] is false for [None] and for the empty
    string. *)
Definition resolve (self : CrossrefProcessor) (resolver : option Resolver)
    (suite : list ApiObject) (node : Located) (t : Token)
  : M (option string) :=
  match resolver_v2 self with
  | Some r2 =>
      target <- call_v2 r2 suite node (ref t) ;;
      match target with
      | Some tg => ret (Some (link_directive tg (text_of t)))
      | None => ret None
      end
  | None =>
      match resolver with
      | Some r =>
          href <- call_basic r node (ref t) ;;
          match href with
          | Some h =>
              if Str.truthy h then ret (Some (hyperlink (text_of t) h))
              else ret None
          | None => ret None
          end
      | None => ret None
      end
  end.

(** The function [handler] nested in [_preprocess_refs]. *)
Definition handler (self : CrossrefProcessor) (resolver : option Resolver)
    (suite : list ApiObject) (node : Located) (m : Match) : M string :=
  let t := token_of m in
  result <- resolve self resolver suite node t ;;
  result <-
    match result with
    | Some r => ret r
    | None =>
        record_unresolved (dotted node) (ref t) ;;
        ret (inline_code (ref t ++ parens t ++ trailing t))
    end ;;
  ret (if has_trailing_dot t then result ++ "." else result).

(** [re.sub(pattern, repl, s)] with a function [repl]: the unmatched text
    is copied, each match is replaced by what [repl] returns for it, in
    the order of the scan. *)
Fixpoint sub_pieces (repl : Match -> M string) (ps : list piece) : M string :=
  match ps with
  | [] => ret EmptyString
  | Lit c :: ps' => out <- sub_pieces repl ps' ;; ret (String c out)
  | Hit m :: ps' =>
      r <- repl m ;;
      out <- sub_pieces repl ps' ;;
      ret (r ++ out)
  end.

Definition re_sub (repl : Match -> M string) (s : string) : M string :=
  sub_pieces repl (finditer s).

(** [_preprocess_refs]: the content of the node's docstring after the
    call. *)
Definition _preprocess_refs (self : CrossrefProcessor) (node : Located)
    (resolver : option Resolver) (suite : list ApiObject)
  : M (option string) :=
  match obj_docstring (loc_obj node) with
  | None => ret None
  | Some content =>
      content' <- re_sub (handler self resolver suite node) content ;;
      ret (Some content')
  end.

(** What a traversal leaves behind: the objects with their docstrings as
    they are when it ends, the state, and the exception that ended it,
    if one did. *)
Definition Visited (A : Type) : Type := (A * State * option exn)%type.

(** [docspec.visit(objects, func)]: [func] is called on each object and
    then on its members, in order. [func] is [_preprocess_refs], whose
    effect on the object is the new content of its docstring; when it
    raises, the object is left as it was and the traversal ends. [anc]
    holds the names of the ancestors of the objects visited. *)
Fixpoint visit_obj (func : Located -> M (option string)) (anc : list string)
    (o : ApiObject) (st : State) {struct o} : Visited ApiObject :=
  match o with
  | Obj n d ms =>
      let path := (anc ++ [n])%list in
      match func {| loc_path := path; loc_obj := o |} st with
      | (Raised e, st1) => (o, st1, Some e)
      | (Ok d', st1) =>
          let fix visit_members (l : list ApiObject) (st : State)
            : Visited (list ApiObject) :=
            match l with
            | [] => ([], st, None)
            | x :: l' =>
                match visit_obj func path x st with
                | (x', st2, Some e) => (x' :: l', st2, Some e)
                | (x', st2, None) =>
                    let '(l'', st3, e) := visit_members l' st2 in
                    (x' :: l'', st3, e)
                end
            end in
          let '(ms', st2, e) := visit_members ms st1 in
          (Obj n d' ms', st2, e)
      end
  end.

Fixpoint visit (func : Located -> M (option string)) (anc : list string)
    (l : list ApiObject) (st : State) : Visited (list ApiObject) :=
  match l with
  | [] => ([], st, None)
  | x :: l' =>
      match visit_obj func anc x st with
      | (x', st2, Some e) => (x' :: l', st2, Some e)
      | (x', st2, None) =>
          let '(l'', st3, e) := visit func anc l' st2 in
          (x' :: l'', st3, e)
      end
  end.

(** The message given to [logger.warning] when [unresolved] is not
    empty: the number of unresolved references and a line for each entry. *)
Definition summary_line (entry : string * list string) : string :=
  "  " ++ fst entry ++ ": " ++ Str.join ", " (snd entry).

Definition warning_message (unresolved : Report) : string :=
  Str.of_nat (list_sum (map (fun e => List.length (snd e)) unresolved))
  ++ " cross-reference(s) could not be resolved:" ++ Str.nl
  ++ Str.join Str.nl (map summary_line unresolved).

(** What a call of [process] does: the modules after the call, the
    exception it raised, if any, the warning it logged, if any, and the
    [unresolved] dictionary and the resolver calls at its end. *)
Record Run := {
  modules_after : list ApiObject;
  raised : option exn;
  warning : option string;
  report : Report;
  resolver_calls : list call
}.

Definition process (self : CrossrefProcessor) (modules : list ApiObject)
    (resolver : option Resolver) : Run :=
  let '(modules', st, e) :=
    visit (fun x => _preprocess_refs self x resolver modules) [] modules
      initial in
  {| modules_after := modules';
     raised := e;
     warning :=
       match e, unresolved st with
       | None, _ :: _ => Some (warning_message (unresolved st))
       | _, _ => None
       end;
     report := unresolved st;
     resolver_calls := calls st |}.

End Processor.

(** ** Vocabulary of the statements *)

Section Vocabulary.
Context {host : Host}.

(** The name a match is looked up under: [ref] as [handler] passes it to
    the resolver. *)
Definition lookup_name (m : Match) : string := ref (token_of m).

(** The text [handler] returns for a match that is not resolved. *)
Definition fallback_text (m : Match) : string :=
  let t := token_of m in
  let r := inline_code (text_of t) in
  if has_trailing_dot t then r ++ "." else r.

(** The call [handler] makes for a name: to the typed resolver when one is
    configured, else to the basic resolver when one is given. *)
Definition lookup_calls (self : CrossrefProcessor) (resolver : option Resolver)
    (node : Located) (name : string) : list call :=
  match resolver_v2 self, resolver with
  | Some _, _ => [CallV2 node name]
  | None, Some _ => [CallBasic node name]
  | None, None => []
  end.

(** [result is None] after the resolver statement of [handler]. *)
Definition lookup_fails (self : CrossrefProcessor) (resolver : option Resolver)
    (suite : list ApiObject) (node : Located) (name : string) : bool :=
  match resolver_v2 self, resolver with
  | Some r2, _ =>
      match resolve_reference r2 suite node name with
      | Returns None => true
      | _ => false
      end
  | None, Some r =>
      match resolve_ref r node name with
      | Returns None => true
      | Returns (Some h) => negb (Str.truthy h)
      | Raises _ => false
      end
  | None, None => true
  end.

(** The exception a logged call ended with, if it raised. *)
Definition exception_of (self : CrossrefProcessor) (resolver : option Resolver)
    (suite : list ApiObject) (c : call) : option exn :=
  match c with
  | CallV2 node name =>
      match resolver_v2 self with
      | Some r2 =>
          match resolve_reference r2 suite node name with
          | Raises e => Some e
          | Returns _ => None
          end
      | None => None
      end
  | CallBasic node name =>
      match resolver with
      | Some r =>
          match resolve_ref r node name with
          | Raises e => Some e
          | Returns _ => None
          end
      | None => None
      end
  end.

(** Every configured resolver returns [None] for a name in a scope. *)
Definition unresolved_everywhere (self : CrossrefProcessor)
    (resolver : option Resolver) (suite : list ApiObject) (node : Located)
    (name : string) : Prop :=
  (forall r2, resolver_v2 self = Some r2 ->
              resolve_reference r2 suite node name = Returns None)
  /\ (forall r, resolver = Some r -> resolve_ref r node name = Returns None).

End Vocabulary.

(** An object without its docstring text: the name, whether there is a
    docstring, and the members. The path of an object is made of names, so
    it is the same in two trees with the same skeleton. *)
Fixpoint skeleton (o : ApiObject) : ApiObject :=
  match o with
  | Obj n d ms =>
      Obj n (option_map (fun _ => EmptyString) d) (map skeleton ms)
  end.

(** [o.docstring.content] has no [#], for every object of a tree. *)
Fixpoint hash_free (o : ApiObject) : bool :=
  match o with
  | Obj _ d ms =>
      match d with Some s => negb (Str.mem "#" s) | None => true end
      && forallb hash_free ms
  end.

(** ** A host for plain ASCII text *)

(** No character above code 127 is a word character or a digit; a text made
    of reference characters and parentheses needs no escape in TOML, so
    [tomli_w] writes it between double quotes after the key. *)
Definition double_quote : string := String (ascii_of_nat 34) EmptyString.

Definition plain_toml (s : string) : string :=
  "text = " ++ double_quote ++ s ++ double_quote ++ Str.nl.

Definition ascii_host : Host := {|
  wide_word := fun _ => false;
  wide_digit := fun _ => false;
  tomli_w_dumps_text := plain_toml
|}.

(** Resolvers of the examples. *)

(** Resolves the name [Foo] to [/api/foo] and nothing else. *)
Definition foo_resolver : Resolver := {|
  resolve_ref := fun _ name =>
    if String.eqb name "Foo" then Returns (Some "/api/foo") else Returns None
|}.

(** Resolves nothing. *)
Definition blind_resolver : Resolver := {|
  resolve_ref := fun _ _ => Returns None
|}.

(** Resolves every name to an anchor of the page it is on. *)
Definition anchor_resolver : Resolver := {|
  resolve_ref := fun _ name => Returns (Some ("#" ++ name))
|}.

(** Finds nothing. *)
Definition blind_v2 : ResolverV2 := {|
  resolve_reference := fun _ _ _ => Returns None
|}.

Definition foo_object : Located :=
  {| loc_path := ["pkg"; "Foo"]; loc_obj := Obj "Foo" None [] |}.

(** Finds the object [pkg.Foo] under the name [Foo]. *)
Definition foo_v2 : ResolverV2 := {|
  resolve_reference := fun _ _ name =>
    if String.eqb name "Foo" then Returns (Some foo_object) else Returns None
|}.

(** Raises on the name [Bad]. *)
Definition failing_resolver : Resolver := {|
  resolve_ref := fun _ name =>
    if String.eqb name "Bad" then Raises (Exception "lookup index is broken")
    else Returns None
|}.

Definition module_with (doc : string) : ApiObject := Obj "pkg" (Some doc) [].

Definition at_root (o : ApiObject) : Located :=
  {| loc_path := [obj_name o]; loc_obj := o |}.

(** ** Vocabulary of the traversal and of repeated runs *)

(** The paths of the objects of a forest, in the order of the traversal. *)
Fixpoint paths_of (anc : list string) (o : ApiObject) : list (list string) :=
match o with
| Obj n _ ms =>
    (anc ++ [n])%list :: flat_map (paths_of (anc ++ [n])%list) ms
end.

Definition paths (l : list ApiObject) : list (list string) :=
flat_map (paths_of []) l.

Section Outcomes.
Context {host : Host}.
Variables (self : CrossrefProcessor) (resolver : option Resolver)
          (suite : list ApiObject).

(** What [handler] returns for a match in a scope, read off the answers of
    the resolvers: the substitution text, or the exception of the call. *)
Definition substitution (node : Located) (m : Match) : result string :=
let t := token_of m in
let dot (r : string) := if has_trailing_dot t then r ++ "." else r in
match resolver_v2 self, resolver with
| Some r2, _ =>
    match resolve_reference r2 suite node (ref t) with
    | Raises e => Raised e
    | Returns (Some target) => Ok (dot (link_directive target (text_of t)))
    | Returns None => Ok (fallback_text m)
    end
| None, Some r =>
    match resolve_ref r node (ref t) with
    | Raises e => Raised e
    | Returns (Some href) =>
        if Str.truthy href then Ok (dot (hyperlink (text_of t) href))
        else Ok (fallback_text m)
    | Returns None => Ok (fallback_text m)
    end
| None, None => Ok (fallback_text m)
end.

(** The text that stands for a piece of the scan in the output of a run in
    which no call raises. *)
Definition piece_text (node : Located) (p : piece) : string :=
match p with
| Lit c => String c EmptyString
| Hit m =>
    match substitution node m with
    | Ok r => r
    | Raised _ => EmptyString
    end
end.

(** A docstring of [node] with every match replaced by its substitution. *)
Definition rewritten (node : Located) (content : string) : string :=
fold_right (fun p out => piece_text node p ++ out) EmptyString
  (finditer content).

(** The names a run records for a docstring of [node]: the lookup names of
    the matches whose lookup fails, in the order of the text. *)
Definition failed_names (node : Located) (content : string) : list string :=
map lookup_name
  (filter (fun m => lookup_fails self resolver suite node (lookup_name m))
     (hits (finditer content))).

(** [unresolved.setdefault(uid, []).append(x)] for each [x] of a list. *)
Definition record_all (uid : string) (names : list string) (d : Report)
  : Report :=
fold_left (fun d x => Dict.setdefault_append uid x d) names d.

(** Every call of a log returned. *)
Definition all_return (cs : list call) : Prop :=
Forall (fun c => exception_of self resolver suite c = None) cs.

(** The last call of a log raised [e] and every call before it returned. *)
Definition ends_raising (e : exn) (cs : list call) : Prop :=
exists cs0 c,
  cs = (cs0 ++ [c])%list /\ all_return cs0
  /\ exception_of self resolver suite c = Some e.

(** What a computation adds to the log of calls agrees with how it ends. *)
Definition log_agrees (st : State) (e : option exn) (st' : State) : Prop :=
exists cs,
  calls st' = (calls st ++ cs)%list
  /\ match e with
     | None => all_return cs
     | Some x => ends_raising x cs
     end.

Definition exn_of {A} (r : result A) : option exn :=
match r with Ok _ => None | Raised e => Some e end.

(** No address the basic resolver returns holds a [#]. *)
Definition addresses_hash_free : Prop :=
forall r node name href,
  resolver = Some r ->
  resolve_ref r node name = Returns (Some href) ->
  Str.mem "#" href = false.

(** No link directive made for a target the typed resolver returns holds a
    [#], when the display text holds none. *)
Definition directives_hash_free : Prop :=
forall r2 node name target text,
  resolver_v2 self = Some r2 ->
  resolve_reference r2 suite node name = Returns (Some target) ->
  Str.mem "#" text = false ->
  Str.mem "#" (link_directive target text) = false.

End Outcomes.

(** A scan does not start with an unmatched [#]. *)
Definition clear_start (ps : list piece) : bool :=
match ps with
| Lit c :: _ => negb (Ascii.eqb c "#")
| _ => true
end.

(** No match of a scan is directly followed by an unmatched [#]. *)
Fixpoint spaced (ps : list piece) : bool :=
match ps with
| [] => true
| Hit _ :: ps' => clear_start ps' && spaced ps'
| Lit _ :: ps' => spaced ps'
end.

Section Rescan.
Context {host : Host}.

Definition starts_with_ref_lit (ps : list piece) : bool :=
match ps with
| Lit d :: _ => ref_char d
| _ => false
end.

(** In the output of a run, no [#] copied from the subject starts a match:
    [w] tells whether the character before, in the output, is a word
    character. The text put in place of a match ends with a character that
    is not one. *)
Fixpoint settled (w : bool) (ps : list piece) : bool :=
match ps with
| [] => true
| Lit c :: ps' =>
    (if Ascii.eqb c "#" then w || negb (starts_with_ref_lit ps') else true)
    && settled (is_word c) ps'
| Hit _ :: ps' => settled false ps'
end.

(** [\w] holds of the character before a position. *)
Definition wordness (prev : option ascii) : bool :=
match prev with Some p => is_word p | None => false end.

(** A text that can stand for a match in the output: it holds no [#] and
    starts with a character that cannot be part of a reference. *)
Definition inert (r : string) : Prop :=
Str.mem "#" r = false
/\ exists c r', r = String c r' /\ ref_char c = false.

(** The groups of a match are as the pattern makes them. *)
Definition well_formed (m : Match) : Prop :=
Str.truthy (g_ref m) = true
/\ Str.forallb_chars ref_char (g_ref m) = true
/\ (g_parens m = None \/ g_parens m = Some "()")
/\ (g_trailing m = None
    \/ exists t, g_trailing m = Some (String "#" t)
                /\ Str.truthy t = true
                /\ Str.forallb_chars ref_char t = true).

End Rescan.

(** ** Vocabulary of the further properties *)

(** The objects of a tree with their paths, in the order in which
    [docspec.visit] calls its function on them. *)
Fixpoint located_of (anc : list string) (o : ApiObject) : list Located :=
match o with
| Obj n _ ms =>
    {| loc_path := (anc ++ [n])%list; loc_obj := o |}
    :: flat_map (located_of (anc ++ [n])%list) ms
end.

Definition located (l : list ApiObject) : list Located :=
flat_map (located_of []) l.

(** The docstrings of a tree, in the same order. *)
Fixpoint docs_of (o : ApiObject) : list (option string) :=
match o with
| Obj _ d ms => d :: flat_map docs_of ms
end.

Definition docs (l : list ApiObject) : list (option string) :=
flat_map docs_of l.

Definition doc_of (node : Located) : option string :=
obj_docstring (loc_obj node).

(** The calls of a function on a list of objects, one after the other,
    until one raises: the docstrings they leave (those of the objects not
    reached are as they were), the state and the exception. *)
Fixpoint run_nodes (func : Located -> M (option string))
    (nodes : list Located) (st : State) : Visited (list (option string)) :=
match nodes with
| [] => ([], st, None)
| node :: rest =>
    match func node st with
    | (Raised e, st1) => (map doc_of (node :: rest), st1, Some e)
    | (Ok d', st1) =>
        let '(ds, st2, e) := run_nodes func rest st1 in
        (d' :: ds, st2, e)
    end
end.

Section Further.
Context {host : Host}.

(** A character that no match holds and that no match looks at to decide
    how far it goes: not a reference character, no [#], no parenthesis. *)
Definition separator (c : ascii) : bool :=
negb (ref_char c) && negb (Ascii.eqb c "#")
&& negb (Ascii.eqb c "(") && negb (Ascii.eqb c ")").


Variables (self : CrossrefProcessor) (resolver : option Resolver)
          (suite : list ApiObject).

(** The calls [_preprocess_refs] makes for an object when none raises: one
    for each match of its docstring, in order. *)
Definition calls_of_node (node : Located) : list call :=
match doc_of node with
| Some content =>
    flat_map (fun m => lookup_calls self resolver node (lookup_name m))
      (hits (finditer content))
| None => []
end.

(** The names it records as unresolved for the object. *)
Definition failed_of_node (node : Located) : list string :=
match doc_of node with
| Some content => failed_names self resolver suite node content
| None => []
end.

(** The docstring it leaves. *)
Definition rewritten_doc (node : Located) : option string :=
option_map (rewritten self resolver suite node) (doc_of node).

(** A call goes to the typed resolver when one is configured, and to the
    basic resolver when none is and a basic resolver is given. *)
Definition call_allowed (c : call) : Prop :=
match c with
| CallV2 _ _ => resolver_v2 self <> None
| CallBasic _ _ => resolver_v2 self = None /\ resolver <> None
end.

End Further.

(** What holds of the [unresolved] dictionary all along a run over the
    objects [nodes]: no key twice, no empty list, names of reference
    characters only, and keys that are the dot-joined paths of objects
    with a docstring. *)
Definition report_ok {host : Host} (nodes : list Located) (d : Report) : Prop :=
NoDup (map fst d)
/\ forall uid refs,
     In (uid, refs) d ->
     refs <> []
     /\ Forall (fun r => Str.forallb_chars ref_char r = true) refs
     /\ exists node, In node nodes /\ doc_of node <> None /\ uid = dotted node.

(** [sum(map(len, unresolved.values()))] *)
Definition total_refs (d : Report) : nat :=
list_sum (map (fun e => List.length (snd e)) d).

(** ** Vocabulary of whole runs, written out *)

(** The inline code that stands for a match, character by character: a
    backquote, the name, the call suffix, the suffix appended, a
    backquote, and the period taken off the reference, if one was. *)
Definition code_span (m : Match) : string :=
let t := token_of m in
("`" ++ ref t ++ parens t ++ trailing t ++ "`"
 ++ (if has_trailing_dot t then "." else ""))%string.

(** A text with each of its matches replaced by [f] of the match, the
    rest being copied. *)
Definition render_with {host : Host} (f : Match -> string) (content : string)
  : string :=
fold_right
  (fun p out =>
     match p with
     | Lit c => String c out
     | Hit m => (f m ++ out)%string
     end)
  EmptyString (finditer content).

(** The names that failed to resolve in the docstrings of the objects of
    [nodes] whose dot-joined path is [uid], in the order of the objects
    and of the text. *)
Definition failed_under {host : Host} (self : CrossrefProcessor)
    (resolver : option Resolver) (suite : list ApiObject) (uid : string)
    (nodes : list Located) : list string :=
flat_map
  (fun node =>
     if String.eqb (dotted node) uid
     then failed_of_node self resolver suite node
     else [])
  nodes.

(** * Properties *)

(** ** The monad *)

Lemma bind_ok {A B} (c : M A) (k : A -> M B) st a st1 :
  c st = (Ok a, st1) -> bind c k st = k a st1.
Proof. intros E. unfold bind. now rewrite E. Qed.

(** ** The grammar *)

Section GrammarFacts.
Context {host : Host}.

Lemma is_word_hash : is_word "#" = false.
Proof. reflexivity. Qed.

Lemma ref_char_hash : ref_char "#" = false.
Proof. reflexivity. Qed.

(** A match starts on a [#]. *)
Lemma match_at_head prev c s m :
  match_at prev (String c s) = Some m -> c = "#"%char.
Proof.
  unfold match_at.
  destruct (non_boundary prev (String c s)); [|discriminate].
  destruct (Ascii.eqb_spec c "#"); [auto|discriminate].
Qed.

(** Without a [#] the scan finds no match. *)
Lemma scan_no_hash s : forall prev,
  Str.mem "#" s = false ->
  scan 0 prev s = map Lit (list_ascii_of_string s).
Proof.
  induction s as [|c s IH]; intros prev Hm; [reflexivity|].
  cbn [Str.mem] in Hm. apply orb_false_iff in Hm as [Hc Hs].
  cbn [scan list_ascii_of_string map].
  destruct (match_at prev (String c s)) as [m|] eqn:E.
  - apply match_at_head in E. subst c. discriminate.
  - f_equal. now apply IH.
Qed.

End GrammarFacts.

(** ** Substitution *)

Lemma sub_pieces_lits (repl : Match -> M string) l st :
  sub_pieces repl (map Lit l) st = (Ok (string_of_list_ascii l), st).
Proof.
  induction l as [|c l IH]; [reflexivity|].
  cbn [map sub_pieces]. now rewrite (bind_ok _ _ _ _ _ IH).
Qed.

Section HandlerFacts.
Context {host : Host}.
Variables (self : CrossrefProcessor) (resolver : option Resolver)
          (suite : list ApiObject) (node : Located).

Lemma unresolved_everywhere_fails name :
  unresolved_everywhere self resolver suite node name ->
  lookup_fails self resolver suite node name = true.
Proof.
  intros [H2 H1]. unfold lookup_fails.
  destruct (resolver_v2 self) as [r2|].
  - now rewrite (H2 r2 eq_refl).
  - destruct resolver as [r|]; [|reflexivity]. now rewrite (H1 r eq_refl).
Qed.

(** A match whose lookup fails: the name is recorded under the node's id
    and the text comes back as inline code, after the one call (if any
    resolver is there to be called). *)
Lemma handler_unresolved m st :
  lookup_fails self resolver suite node (lookup_name m) = true ->
  handler self resolver suite node m st =
    (Ok (fallback_text m),
     {| unresolved :=
          Dict.setdefault_append (dotted node) (lookup_name m) (unresolved st);
        calls := calls st ++ lookup_calls self resolver node (lookup_name m) |}).
Proof.
  unfold lookup_fails, lookup_calls, handler, resolve, fallback_text, lookup_name.
  set (t := token_of m).
  destruct (resolver_v2 self) as [r2|].
  - unfold call_v2, bind, log_call, lift_answer.
    destruct (resolve_reference r2 suite node (ref t)) as [[tg|]|e];
      try discriminate.
    intros _. cbn. unfold text_of. now destruct (has_trailing_dot t).
  - destruct resolver as [r|].
    + unfold call_basic, bind, log_call, lift_answer.
      destruct (resolve_ref r node (ref t)) as [[h|]|e]; try discriminate.
      * destruct h; [|discriminate]. intros _. cbn. unfold text_of.
        now destruct (has_trailing_dot t).
      * intros _. cbn. unfold text_of. now destruct (has_trailing_dot t).
    + intros _. cbn. rewrite app_nil_r. unfold text_of.
      now destruct (has_trailing_dot t).
Qed.

(** A match the typed resolver finds. *)
Lemma handler_v2_found m st r2 target :
  resolver_v2 self = Some r2 ->
  resolve_reference r2 suite node (lookup_name m) = Returns (Some target) ->
  handler self resolver suite node m st =
    (Ok (let r := link_directive target (text_of (token_of m)) in
         if has_trailing_dot (token_of m) then r ++ "." else r),
     {| unresolved := unresolved st;
        calls := calls st ++ [CallV2 node (lookup_name m)] |}).
Proof.
  unfold handler, resolve, lookup_name. intros -> E.
  unfold call_v2, bind, log_call, lift_answer. rewrite E. reflexivity.
Qed.

(** A match the basic resolver finds, when no typed resolver is
    configured. *)
Lemma handler_basic_found m st r href :
  resolver_v2 self = None ->
  resolver = Some r ->
  resolve_ref r node (lookup_name m) = Returns (Some href) ->
  Str.truthy href = true ->
  handler self resolver suite node m st =
    (Ok (let r := hyperlink (text_of (token_of m)) href in
         if has_trailing_dot (token_of m) then r ++ "." else r),
     {| unresolved := unresolved st;
        calls := calls st ++ [CallBasic node (lookup_name m)] |}).
Proof.
  unfold handler, resolve, lookup_name. intros -> -> E T.
  unfold call_basic, bind, log_call, lift_answer. rewrite E, T. reflexivity.
Qed.

End HandlerFacts.

(** ** Single docstrings *)

Section Docstrings.
Context {host : Host}.
Variables (self : CrossrefProcessor) (resolver : option Resolver)
          (suite : list ApiObject) (node : Located).

Lemma finditer_see_foo :
  finditer "See #Foo." =
    [Lit "S"; Lit "e"; Lit "e"; Lit " ";
     Hit {| g_ref := "Foo."; g_parens := None; g_trailing := None |}].
Proof. reflexivity. Qed.

Lemma finditer_foo_bar :
  finditer "#Foo#bar" =
    [Hit {| g_ref := "Foo"; g_parens := None; g_trailing := Some "#bar" |}].
Proof. reflexivity. Qed.

(** C6. A docstring without any [#] is left exactly as it is by
    [_preprocess_refs], and the call changes neither the [unresolved]
    dictionary (no entry is added for the node) nor anything else of the
    state: no resolver is called. *)
Theorem no_hash_docstring_untouched content st :
  obj_docstring (loc_obj node) = Some content ->
  Str.mem "#" content = false ->
  _preprocess_refs self node resolver suite st = (Ok (Some content), st).
Proof.
  intros Hd Hm. unfold _preprocess_refs, re_sub, finditer. rewrite Hd.
  rewrite (scan_no_hash _ _ Hm).
  erewrite bind_ok by apply sub_pieces_lits.
  unfold ret. now rewrite string_of_list_ascii_of_string.
Qed.

(** C4. The docstring [See #Foo.], when every configured resolver returns
    [None] for [Foo], becomes [See `Foo`.]: the name looked up and
    recorded is [Foo] without the period, the code span holds [Foo]
    alone, and the period follows the span. *)
Theorem trailing_period_preserved st :
  obj_docstring (loc_obj node) = Some "See #Foo." ->
  unresolved_everywhere self resolver suite node "Foo" ->
  _preprocess_refs self node resolver suite st =
    (Ok (Some "See `Foo`."),
     {| unresolved := Dict.setdefault_append (dotted node) "Foo" (unresolved st);
        calls := calls st ++ lookup_calls self resolver node "Foo" |}).
Proof.
  intros Hd Hu. apply unresolved_everywhere_fails in Hu.
  unfold _preprocess_refs, re_sub. rewrite Hd, finditer_see_foo.
  cbn [sub_pieces]. unfold bind.
  rewrite (handler_unresolved self resolver suite node
             {| g_ref := "Foo."; g_parens := None; g_trailing := None |} st Hu).
  reflexivity.
Qed.

(** C3, as the code has it. The docstring [#Foo#bar], when every
    configured resolver returns [None] for [Foo], becomes [`Foobar`]: the
    second [#] is taken off and the suffix is appended to the name
    directly. The name looked up and recorded is [Foo]. *)
Theorem append_suffix_joined st :
  obj_docstring (loc_obj node) = Some "#Foo#bar" ->
  unresolved_everywhere self resolver suite node "Foo" ->
  _preprocess_refs self node resolver suite st =
    (Ok (Some "`Foobar`"),
     {| unresolved := Dict.setdefault_append (dotted node) "Foo" (unresolved st);
        calls := calls st ++ lookup_calls self resolver node "Foo" |}).
Proof.
  intros Hd Hu. apply unresolved_everywhere_fails in Hu.
  unfold _preprocess_refs, re_sub. rewrite Hd, finditer_foo_bar.
  cbn [sub_pieces]. unfold bind.
  rewrite (handler_unresolved self resolver suite node
             {| g_ref := "Foo"; g_parens := None; g_trailing := Some "#bar" |}
             st Hu).
  reflexivity.
Qed.

End Docstrings.

(** ** The handler as a function of the resolvers' answers *)

Section Dispatch.
Context {host : Host}.
Variables (self : CrossrefProcessor) (resolver : option Resolver)
          (suite : list ApiObject) (node : Located).

Lemma handler_spec m st :
  handler self resolver suite node m st =
    (substitution self resolver suite node m,
     {| unresolved :=
          if lookup_fails self resolver suite node (lookup_name m)
          then Dict.setdefault_append (dotted node) (lookup_name m) (unresolved st)
          else unresolved st;
        calls := calls st ++ lookup_calls self resolver node (lookup_name m) |}).
Proof.
  unfold handler, resolve, substitution, lookup_fails, lookup_calls,
    lookup_name, fallback_text.
  set (t := token_of m).
  destruct (resolver_v2 self) as [r2|].
  - unfold call_v2, bind, log_call, lift_answer.
    destruct (resolve_reference r2 suite node (ref t)) as [[tg|]|e]; cbn;
      unfold text_of; now destruct (has_trailing_dot t).
  - destruct resolver as [r|].
    + unfold call_basic, bind, log_call, lift_answer.
      destruct (resolve_ref r node (ref t)) as [[[|c h]|]|e]; cbn;
        unfold text_of; now destruct (has_trailing_dot t).
    + cbn. rewrite app_nil_r. unfold text_of.
      now destruct (has_trailing_dot t).
Qed.

(** C1, as the code has it. Take a match that the basic resolver given to
    [process] resolves to a non-empty address, and let the typed resolver,
    if one is configured, return [None] for it. When a typed resolver is
    configured, [handler] calls it alone: the basic resolver is not
    consulted, the name is recorded as unresolved and the text becomes
    inline code. Only when no typed resolver is configured is the basic
    resolver called and the text made a hyperlink. *)
Theorem typed_resolver_shadows_basic m st r href :
  resolver = Some r ->
  resolve_ref r node (lookup_name m) = Returns (Some href) ->
  Str.truthy href = true ->
  (forall r2, resolver_v2 self = Some r2 ->
     resolve_reference r2 suite node (lookup_name m) = Returns None) ->
  handler self resolver suite node m st =
    match resolver_v2 self with
    | Some _ =>
        (Ok (fallback_text m),
         {| unresolved :=
              Dict.setdefault_append (dotted node) (lookup_name m) (unresolved st);
            calls := calls st ++ [CallV2 node (lookup_name m)] |})
    | None =>
        (Ok (let link := hyperlink (text_of (token_of m)) href in
             if has_trailing_dot (token_of m) then link ++ "." else link),
         {| unresolved := unresolved st;
            calls := calls st ++ [CallBasic node (lookup_name m)] |})
    end.
Proof.
  intros Hr Hbasic Hhref Htyped.
  destruct (resolver_v2 self) as [r2|] eqn:E2.
  - rewrite handler_unresolved.
    + unfold lookup_calls. now rewrite E2.
    + unfold lookup_fails. rewrite E2. now rewrite (Htyped r2 eq_refl).
  - now apply (handler_basic_found self resolver suite node m st r href).
Qed.

(** C5. When a typed resolver is configured and returns a target for a
    match, the text [handler] returns is the [{@link}] directive made of the
    target's dot-joined path and of the display text (followed by the
    period taken off the reference, if one was), whatever basic resolver
    is given: the basic resolver is not called, nothing is recorded as
    unresolved, and the text is not a hyperlink [[`text`](address)]. *)
Theorem typed_resolver_priority m st r2 target :
  resolver_v2 self = Some r2 ->
  resolve_reference r2 suite node (lookup_name m) = Returns (Some target) ->
  let text := text_of (token_of m) in
  let directive :=
    "{@link pydoc:" ++ Str.join "." (loc_path target) ++ " :with "
    ++ tomli_w_dumps_text text ++ "}" in
  let out := if has_trailing_dot (token_of m) then directive ++ "." else directive in
  handler self resolver suite node m st =
    (Ok out,
     {| unresolved := unresolved st;
        calls := calls st ++ [CallV2 node (lookup_name m)] |})
  /\ forall text' href suffix, out <> hyperlink text' href ++ suffix.
Proof.
  intros H2 Ht text directive out. split.
  - now rewrite (handler_v2_found self resolver suite node m st r2 target H2 Ht).
  - intros text' href suffix. subst out directive.
    destruct (has_trailing_dot (token_of m)); cbn; discriminate.
Qed.

End Dispatch.

(** ** The traversal *)

(** Induction on an object with the induction hypothesis for its members. *)
Lemma ApiObject_members_ind (P : ApiObject -> Prop) :
  (forall n d ms, Forall P ms -> P (Obj n d ms)) ->
  forall o, P o.
Proof.
  intros step. fix IH 1. intros [n d ms]. apply step.
  induction ms as [|x ms IHms]; constructor; [apply IH | exact IHms].
Qed.

Section Traversal.
Variable func : Located -> M (option string).

(** The loop over the members of an object is [visit]. *)
Lemma visit_obj_eq anc n d ms st :
  visit_obj func anc (Obj n d ms) st =
    match func {| loc_path := anc ++ [n]; loc_obj := Obj n d ms |} st with
    | (Raised e, st1) => (Obj n d ms, st1, Some e)
    | (Ok d', st1) =>
        let '(ms', st2, e) := visit func (anc ++ [n]) ms st1 in
        (Obj n d' ms', st2, e)
    end.
Proof.
  cbn [visit_obj].
  destruct (func _ st) as [[d'|e] st1]; [|reflexivity].
  match goal with
  | |- context [?F ms st1] =>
      is_fix F;
      assert (E : forall l s, F l s = visit func (anc ++ [n]) l s)
  end.
  { induction l as [|x l IHl]; intros s; [reflexivity|].
    cbn [visit]. destruct (visit_obj func (anc ++ [n]) x s) as [[x' s2] [e|]];
      [reflexivity|]. now rewrite IHl. }
  now rewrite E.
Qed.

Section Frame.
(** [func] turns the content of a docstring into another content and leaves
    an object without docstring without one. *)
Hypothesis func_keeps_presence : forall node st d' st',
  func node st = (Ok d', st') ->
  option_map (fun _ => EmptyString) d'
  = option_map (fun _ => EmptyString) (obj_docstring (loc_obj node)).

Lemma visit_skeleton_from l :
  Forall (fun o => forall anc st,
            skeleton (fst (fst (visit_obj func anc o st))) = skeleton o) l ->
  forall anc st,
    map skeleton (fst (fst (visit func anc l st))) = map skeleton l.
Proof.
  induction 1 as [|x l Hx _ IHl]; intros anc st; [reflexivity|].
  cbn [visit]. specialize (Hx anc st).
  destruct (visit_obj func anc x st) as [[x' s2] [e|]]; cbn in Hx |- *.
  - now rewrite Hx.
  - specialize (IHl anc s2).
    destruct (visit func anc l s2) as [[l' s3] e]. cbn in IHl |- *.
    now rewrite Hx, IHl.
Qed.

Lemma visit_obj_skeleton o : forall anc st,
  skeleton (fst (fst (visit_obj func anc o st))) = skeleton o.
Proof.
  induction o as [n d ms IH] using ApiObject_members_ind. intros anc st.
  rewrite visit_obj_eq.
  destruct (func _ st) as [[d'|e] st1] eqn:E; [|reflexivity].
  apply func_keeps_presence in E. cbn in E.
  pose proof (visit_skeleton_from ms IH (anc ++ [n]) st1) as Hms.
  destruct (visit func (anc ++ [n]) ms st1) as [[ms' st2] e]. cbn in Hms |- *.
  now rewrite E, Hms.
Qed.

Lemma visit_skeleton l anc st :
  map skeleton (fst (fst (visit func anc l st))) = map skeleton l.
Proof.
  apply visit_skeleton_from. apply Forall_forall. intros o _.
  apply visit_obj_skeleton.
Qed.

End Frame.
End Traversal.

Lemma paths_of_skeleton o : forall anc,
  paths_of anc (skeleton o) = paths_of anc o.
Proof.
  induction o as [n d ms IH] using ApiObject_members_ind. intros anc.
  cbn [skeleton paths_of]. f_equal.
  induction IH as [|x l Hx _ IHl]; [reflexivity|].
  cbn [map flat_map]. now rewrite Hx, IHl.
Qed.

Lemma paths_skeleton l : paths (map skeleton l) = paths l.
Proof.
  unfold paths. induction l as [|x l IH]; [reflexivity|].
  cbn [map flat_map]. now rewrite paths_of_skeleton, IH.
Qed.

Section ProcessFrame.
Context {host : Host}.

Lemma preprocess_keeps_presence self resolver suite node st d' st' :
  _preprocess_refs self node resolver suite st = (Ok d', st') ->
  option_map (fun _ => EmptyString) d'
  = option_map (fun _ => EmptyString) (obj_docstring (loc_obj node)).
Proof.
  unfold _preprocess_refs. destruct (obj_docstring (loc_obj node)) as [c|].
  - unfold bind. destruct (re_sub _ c st) as [[c'|e] s1]; [|discriminate].
    unfold ret. now intros [= <- _].
  - unfold ret. now intros [= <- _].
Qed.

(** C8. Whatever the processor, the resolver and the forest, and whether
    the call returns or raises, the modules after [process] differ from
    the modules before it in the text of docstrings only: the names, the
    members, the presence of a docstring and hence the shape of the forest
    and the path of every object are the same. *)
Theorem process_changes_docstrings_only self modules resolver :
  let run := process self modules resolver in
  map skeleton (modules_after run) = map skeleton modules
  /\ paths (modules_after run) = paths modules.
Proof.
  cbn zeta.
  assert (E : map skeleton (modules_after (process self modules resolver))
              = map skeleton modules).
  { unfold process.
    pose proof (visit_skeleton
                  (fun x => _preprocess_refs self x resolver modules)
                  (fun node st d' st' =>
                     preprocess_keeps_presence self resolver modules node st d' st')
                  modules [] initial) as Hs.
    destruct (visit _ [] modules initial) as [[modules' st] e].
    exact Hs. }
  split; [exact E|].
  now rewrite <- (paths_skeleton (modules_after _)), E, paths_skeleton.
Qed.

End ProcessFrame.

(** ** Exceptions of the resolvers *)

Section Log.
Context {host : Host}.
Variables (self : CrossrefProcessor) (resolver : option Resolver)
          (suite : list ApiObject).

Local Open Scope list_scope.

Abbreviation all_return := (all_return self resolver suite).
Abbreviation ends_raising := (ends_raising self resolver suite).
Abbreviation log_agrees := (log_agrees self resolver suite).
Abbreviation error := (exception_of self resolver suite).

Lemma log_agrees_refl st : log_agrees st None st.
Proof. exists []. split; [now rewrite app_nil_r | constructor]. Qed.

Lemma log_agrees_trans st st1 st2 e :
  log_agrees st None st1 -> log_agrees st1 e st2 -> log_agrees st e st2.
Proof.
  intros (cs1 & E1 & H1) (cs2 & E2 & H2). exists (cs1 ++ cs2). split.
  - now rewrite E2, E1, app_assoc.
  - destruct e as [x|].
    + destruct H2 as (cs0 & c & -> & H0 & Hc). exists (cs1 ++ cs0), c.
      repeat split; [now rewrite app_assoc | | exact Hc].
      apply Forall_app. now split.
    + apply Forall_app. now split.
Qed.

Lemma handler_log node m st :
  log_agrees st (exn_of (fst (handler self resolver suite node m st)))
    (snd (handler self resolver suite node m st)).
Proof.
  rewrite handler_spec. cbn [fst snd].
  exists (lookup_calls self resolver node (lookup_name m)). split; [reflexivity|].
  unfold substitution, lookup_calls, lookup_name.
  destruct (resolver_v2 self) as [r2|] eqn:E2.
  - destruct (resolve_reference r2 suite node (ref (token_of m)))
      as [[tg|]|e] eqn:E; cbn [exn_of].
    + constructor; [|constructor]. cbn. now rewrite E2, E.
    + constructor; [|constructor]. cbn. now rewrite E2, E.
    + exists [], (CallV2 node (ref (token_of m))).
      repeat split; [constructor|]. cbn. now rewrite E2, E.
  - destruct resolver as [r|] eqn:E1; [|constructor].
    destruct (resolve_ref r node (ref (token_of m))) as [[h|]|e] eqn:E.
    + assert (Hok : exn_of
                (if Str.truthy h
                 then Ok ((fun r0 : string =>
                             if has_trailing_dot (token_of m)
                             then (r0 ++ ".")%string else r0)
                            (hyperlink (text_of (token_of m)) h))
                 else Ok (fallback_text m)) = None)
        by now destruct (Str.truthy h).
      cbv beta in Hok |- *. rewrite Hok.
      constructor; [|constructor]. cbn. now rewrite E.
    + constructor; [|constructor]. cbn. now rewrite E.
    + exists [], (CallBasic node (ref (token_of m))).
      repeat split; [constructor|]. cbn. now rewrite E.
Qed.

Lemma sub_pieces_log node ps : forall st,
  log_agrees st
    (exn_of (fst (sub_pieces (handler self resolver suite node) ps st)))
    (snd (sub_pieces (handler self resolver suite node) ps st)).
Proof.
  induction ps as [|[c|m] ps IH]; intros st.
  - apply log_agrees_refl.
  - cbn [sub_pieces]. unfold bind. specialize (IH st).
    destruct (sub_pieces _ ps st) as [[out|e] st1]; exact IH.
  - cbn [sub_pieces]. unfold bind.
    pose proof (handler_log node m st) as Hm.
    destruct (handler self resolver suite node m st) as [[r|e] st1];
      [|exact Hm].
    specialize (IH st1). cbn [fst snd exn_of] in Hm.
    destruct (sub_pieces _ ps st1) as [[out|e] st2]; cbn [fst snd exn_of] in *;
      eapply log_agrees_trans; eauto.
Qed.

Lemma preprocess_log node st :
  log_agrees st
    (exn_of (fst (_preprocess_refs self node resolver suite st)))
    (snd (_preprocess_refs self node resolver suite st)).
Proof.
  unfold _preprocess_refs. destruct (obj_docstring (loc_obj node)) as [c|].
  - unfold bind, re_sub.
    pose proof (sub_pieces_log node (finditer c) st) as Hs.
    destruct (sub_pieces _ (finditer c) st) as [[out|e] st1]; exact Hs.
  - apply log_agrees_refl.
Qed.

Abbreviation func := (fun x => _preprocess_refs self x resolver suite).

Lemma visit_log_from l :
  Forall (fun o => forall anc st,
            log_agrees st (snd (visit_obj func anc o st))
              (snd (fst (visit_obj func anc o st)))) l ->
  forall anc st,
    log_agrees st (snd (visit func anc l st)) (snd (fst (visit func anc l st))).
Proof.
  induction 1 as [|x l Hx _ IHl]; intros anc st.
  - apply log_agrees_refl.
  - cbn [visit]. specialize (Hx anc st).
    destruct (visit_obj func anc x st) as [[x' s2] [e|]]; cbn [fst snd] in *;
      [exact Hx|].
    specialize (IHl anc s2).
    destruct (visit func anc l s2) as [[l' s3] e]. cbn [fst snd] in *.
    eapply log_agrees_trans; eauto.
Qed.

Lemma visit_obj_log o : forall anc st,
  log_agrees st (snd (visit_obj func anc o st))
    (snd (fst (visit_obj func anc o st))).
Proof.
  induction o as [n d ms IH] using ApiObject_members_ind. intros anc st.
  rewrite visit_obj_eq.
  pose proof (preprocess_log
                {| loc_path := anc ++ [n]; loc_obj := Obj n d ms |} st) as Hp.
  destruct (_preprocess_refs self _ resolver suite st) as [[d'|e] st1];
    cbn [fst snd exn_of] in *; [|exact Hp].
  pose proof (visit_log_from ms IH (anc ++ [n]) st1) as Hms.
  destruct (visit func (anc ++ [n]) ms st1) as [[ms' st2] e].
  cbn [fst snd] in *. eapply log_agrees_trans; eauto.
Qed.

Lemma visit_log l anc st :
  log_agrees st (snd (visit func anc l st)) (snd (fst (visit func anc l st))).
Proof.
  apply visit_log_from. apply Forall_forall. intros o _. apply visit_obj_log.
Qed.

End Log.

Section Completion.
Context {host : Host}.
Variables (self : CrossrefProcessor) (resolver : option Resolver)
          (suite : list ApiObject).
Local Open Scope list_scope.

Abbreviation func := (fun x => _preprocess_refs self x resolver suite).

Lemma lookup_fails_fallback node m :
  lookup_fails self resolver suite node (lookup_name m) = true ->
  substitution self resolver suite node m = Ok (fallback_text m).
Proof.
  unfold lookup_fails, substitution, lookup_name.
  destruct (resolver_v2 self) as [r2|].
  - now destruct (resolve_reference r2 suite node (ref (token_of m)))
      as [[tg|]|e].
  - destruct resolver as [r|]; [|reflexivity].
    destruct (resolve_ref r node (ref (token_of m))) as [[h|]|e];
      try easy.
    now destruct (Str.truthy h).
Qed.

Lemma sub_pieces_text node ps : forall st out st1,
  sub_pieces (handler self resolver suite node) ps st = (Ok out, st1) ->
  out = fold_right
          (fun p acc => (piece_text self resolver suite node p ++ acc)%string)
          EmptyString ps
  /\ unresolved st1
     = record_all (dotted node)
         (map lookup_name
            (filter (fun m => lookup_fails self resolver suite node (lookup_name m))
               (hits ps)))
         (unresolved st).
Proof.
  induction ps as [|[c|m] ps IH]; intros st out st1.
  - cbn. now intros [= <- <-].
  - cbn [sub_pieces fold_right piece_text hits flat_map app]. unfold bind.
    destruct (sub_pieces _ ps st) as [[o|e] s1] eqn:E; [|discriminate].
    unfold ret. intros [= <- <-]. destruct (IH _ _ _ E) as [-> ->].
    now split.
  - cbn [sub_pieces fold_right piece_text hits flat_map app filter]. unfold bind.
    rewrite handler_spec.
    destruct (substitution self resolver suite node m) as [r|e]; [|discriminate].
    match goal with |- context [sub_pieces _ ps ?S] => set (s0 := S) end.
    destruct (sub_pieces _ ps s0) as [[o|e] s1] eqn:E; [|discriminate].
    unfold ret. intros [= <- <-]. destruct (IH _ _ _ E) as [-> ->].
    split; [reflexivity|]. subst s0. cbn [unresolved]. fold (hits ps).
    now destruct (lookup_fails self resolver suite node (lookup_name m)).
Qed.

Lemma preprocess_text node st d' st1 :
  _preprocess_refs self node resolver suite st = (Ok d', st1) ->
  d' = option_map (rewritten self resolver suite node)
         (obj_docstring (loc_obj node))
  /\ unresolved st1
     = match obj_docstring (loc_obj node) with
       | Some content =>
           record_all (dotted node)
             (failed_names self resolver suite node content) (unresolved st)
       | None => unresolved st
       end.
Proof.
  unfold _preprocess_refs, re_sub, rewritten, failed_names.
  destruct (obj_docstring (loc_obj node)) as [c|].
  - unfold bind.
    destruct (sub_pieces _ (finditer c) st) as [[o|e] s1] eqn:E; [|discriminate].
    unfold ret. intros [= <- <-].
    destruct (sub_pieces_text _ _ _ _ _ E) as [-> ->]. now split.
  - unfold ret. now intros [= <- <-].
Qed.

End Completion.

(** ** The unresolved report *)

Module DictFacts.

Lemma get_setdefault_same k x d :
  Dict.get_list k (Dict.setdefault_append k x d) = (Dict.get_list k d ++ [x])%list.
Proof.
  unfold Dict.get_list. induction d as [|[k' v] d IH]; cbn.
  - now rewrite String.eqb_refl.
  - destruct (String.eqb k' k) eqn:E; cbn; rewrite E; [reflexivity|exact IH].
Qed.

Lemma get_setdefault_other k k' x d :
  k' <> k ->
  Dict.get k' (Dict.setdefault_append k x d) = Dict.get k' d.
Proof.
  intros Hne. induction d as [|[k0 v] d IH]; cbn.
  - destruct (String.eqb_spec k k'); [congruence|reflexivity].
  - destruct (String.eqb_spec k0 k) as [->|Hk]; cbn.
    + destruct (String.eqb_spec k k'); [congruence|reflexivity].
    + destruct (String.eqb k0 k'); [reflexivity|exact IH].
Qed.

End DictFacts.

Module StrFacts.

Lemma span_all p s : Str.forallb_chars p (fst (Str.span p s)) = true.
Proof.
  induction s as [|c s IH]; [reflexivity|]. cbn [Str.span].
  destruct (p c) eqn:E; [|reflexivity].
  destruct (Str.span p s) as [a b]. cbn in *. now rewrite E, IH.
Qed.

Lemma span_append p s : (fst (Str.span p s) ++ snd (Str.span p s))%string = s.
Proof.
  induction s as [|c s IH]; [reflexivity|]. cbn [Str.span].
  destruct (p c); [|reflexivity].
  destruct (Str.span p s) as [a b]. cbn in *. now rewrite IH.
Qed.

Lemma append_assoc a b c : ((a ++ b) ++ c)%string = (a ++ b ++ c)%string.
Proof. induction a as [|x a IH]; [reflexivity|]. cbn. now rewrite IH. Qed.

Lemma drop_last_all p s :
  Str.forallb_chars p s = true -> Str.forallb_chars p (Str.drop_last s) = true.
Proof.
  induction s as [|c s IH]; [reflexivity|]. cbn [Str.forallb_chars].
  intros [Hc Hs]%andb_prop. destruct s as [|d s]; [reflexivity|].
  cbn [Str.drop_last Str.forallb_chars]. rewrite Hc. exact (IH Hs).
Qed.

Lemma drop_last_dot s :
  Str.endswith_dot s = true -> s = (Str.drop_last s ++ ".")%string.
Proof.
  induction s as [|c s IH]; [discriminate|].
  destruct s as [|d s].
  - cbn. destruct (Ascii.eqb_spec c "."); [now subst|discriminate].
  - intros Hd. cbn [Str.drop_last append]. f_equal. exact (IH Hd).
Qed.

Lemma all_not_mem p c s :
  p c = false -> Str.forallb_chars p s = true -> Str.mem c s = false.
Proof.
  intros Hc. induction s as [|d s IH]; [reflexivity|]. cbn.
  intros [Hd Hs]%andb_prop. rewrite (IH Hs), orb_false_r.
  destruct (Ascii.eqb_spec d c); [congruence|reflexivity].
Qed.

Lemma append_empty s : (s ++ "")%string = s.
Proof. induction s as [|c s IH]; [reflexivity|]. cbn. now rewrite IH. Qed.

Lemma mem_append c a b :
  Str.mem c (a ++ b) = Str.mem c a || Str.mem c b.
Proof.
  induction a as [|d a IH]; [reflexivity|]. cbn. now rewrite IH, orb_assoc.
Qed.

End StrFacts.

Section Matches.
Context {host : Host}.

Lemma match_at_well_formed prev s m :
  match_at prev s = Some m -> well_formed m.
Proof.
  unfold match_at. destruct (non_boundary prev s); [|discriminate].
  destruct s as [|a s1]; [discriminate|].
  destruct (Ascii.eqb a "#"); [|discriminate].
  pose proof (StrFacts.span_all ref_char s1) as Hall.
  destruct (Str.span ref_char s1) as [[|c r] s2]; [discriminate|].
  cbn [fst] in Hall.
  destruct (opt_parens s2) as [p s3] eqn:Ep.
  destruct (opt_trailing s3) as [t s4] eqn:Et.
  intros [= <-]. unfold well_formed. cbn.
  repeat split; [exact Hall | |].
  - unfold opt_parens in Ep. destruct s2 as [|x [|y s2]]; try (injection Ep as <- _; now left).
    destruct (Ascii.eqb x "(" && Ascii.eqb y ")"); injection Ep as <- _; auto.
  - unfold opt_trailing in Et. destruct s3 as [|x s3]; [injection Et as <- _; now left|].
    destruct (Ascii.eqb x "#"); [|injection Et as <- _; now left].
    pose proof (StrFacts.span_all ref_char s3) as Ht.
    destruct (Str.span ref_char s3) as [[|d u] s5]; injection Et as <- _;
      [now left|right]. exists (String d u). now repeat split.
Qed.

Lemma opt_parens_covers s :
  s = (or_empty (fst (opt_parens s)) ++ snd (opt_parens s))%string.
Proof.
  unfold opt_parens. destruct s as [|a [|b r]]; try reflexivity.
  destruct (Ascii.eqb_spec a "("); [|reflexivity].
  destruct (Ascii.eqb_spec b ")"); [|reflexivity]. now subst.
Qed.

Lemma opt_trailing_covers s :
  s = (or_empty (fst (opt_trailing s)) ++ snd (opt_trailing s))%string.
Proof.
  unfold opt_trailing. destruct s as [|a r]; [reflexivity|].
  destruct (Ascii.eqb_spec a "#"); [|reflexivity]. subst a.
  pose proof (StrFacts.span_append ref_char r) as E.
  destruct (Str.span ref_char r) as [[|c t] r']; [reflexivity|].
  cbn in *. now rewrite E.
Qed.

(** A match covers a prefix of the text it is tried on: [group0 m] is the
    text matched, and the scan goes on right after it. *)
Lemma match_at_covers prev s m :
  match_at prev s = Some m -> exists rest, s = (group0 m ++ rest)%string.
Proof.
  unfold match_at. destruct (non_boundary prev s); [|discriminate].
  destruct s as [|a s1]; [discriminate|].
  destruct (Ascii.eqb_spec a "#"); [subst a|discriminate].
  pose proof (StrFacts.span_append ref_char s1) as E1.
  destruct (Str.span ref_char s1) as [[|c r] s2]; [discriminate|].
  pose proof (opt_parens_covers s2) as E2.
  destruct (opt_parens s2) as [p s3].
  pose proof (opt_trailing_covers s3) as E3.
  destruct (opt_trailing s3) as [t s4].
  intros [= <-]. exists s4. unfold group0. cbn [g_ref g_parens g_trailing fst snd] in *.
  rewrite <- E1 at 1. rewrite E2 at 1. rewrite E3 at 1.
  cbn. now rewrite !StrFacts.append_assoc.
Qed.

Lemma scan_well_formed s : forall skip prev,
  Forall well_formed (hits (scan skip prev s)).
Proof.
  induction s as [|c s IH]; intros skip prev; [constructor|].
  cbn [scan]. destruct skip as [|k]; [|apply IH].
  destruct (match_at prev (String c s)) as [m|] eqn:E; cbn; [|apply IH].
  constructor; [now apply match_at_well_formed in E | apply IH].
Qed.

Lemma token_ref_cases m :
  g_ref m = lookup_name m \/ g_ref m = (lookup_name m ++ ".")%string.
Proof.
  unfold lookup_name, token_of.
  destruct (Str.truthy _ && Str.endswith_dot _); [now left|].
  destruct (negb _ && Str.endswith_dot (g_ref m)) eqn:E; [|now left].
  right. cbn. apply andb_prop in E as [_ E]. now apply StrFacts.drop_last_dot.
Qed.

Lemma lookup_name_chars m :
  well_formed m -> Str.forallb_chars ref_char (lookup_name m) = true.
Proof.
  intros (_ & Hr & _). unfold lookup_name, token_of.
  destruct (Str.truthy _ && Str.endswith_dot _); [exact Hr|].
  destruct (negb _ && Str.endswith_dot (g_ref m)); [|exact Hr].
  cbn. now apply StrFacts.drop_last_all.
Qed.

End Matches.

Section Report.
Context {host : Host}.
Variables (self : CrossrefProcessor) (resolver : option Resolver)
          (suite : list ApiObject) (node : Located).
Local Open Scope list_scope.

Lemma sub_pieces_report ps : forall st out st1,
  sub_pieces (handler self resolver suite node) ps st = (Ok out, st1) ->
  Dict.get_list (dotted node) (unresolved st1)
  = Dict.get_list (dotted node) (unresolved st)
    ++ map lookup_name
         (filter (fun m => lookup_fails self resolver suite node (lookup_name m))
            (hits ps))
  /\ calls st1
     = calls st
       ++ flat_map (fun m => lookup_calls self resolver node (lookup_name m))
            (hits ps)
  /\ (forall k, k <> dotted node ->
        Dict.get k (unresolved st1) = Dict.get k (unresolved st)).
Proof.
  induction ps as [|[c|m] ps IH]; intros st out st1.
  - cbn. intros [= _ <-]. now rewrite !app_nil_r.
  - cbn [sub_pieces hits flat_map]. unfold bind.
    destruct (sub_pieces _ ps st) as [[o|e] s1] eqn:E; [|discriminate].
    unfold ret. intros [= _ <-]. exact (IH _ _ _ E).
  - cbn [sub_pieces hits flat_map app filter]. unfold bind.
    rewrite handler_spec.
    destruct (substitution self resolver suite node m) as [r|e]; [|discriminate].
    match goal with |- context [sub_pieces _ ps ?S] => set (s0 := S) end.
    destruct (sub_pieces _ ps s0) as [[o|e] s1] eqn:E; [|discriminate].
    unfold ret. intros [= _ <-].
    destruct (IH _ _ _ E) as (Hu & Hc & Hk). subst s0. cbn [unresolved calls] in *.
    fold (hits ps) in *.
    split; [|split].
    + rewrite Hu.
      destruct (lookup_fails self resolver suite node (lookup_name m)); cbn [map app].
      * now rewrite DictFacts.get_setdefault_same, <- app_assoc.
      * reflexivity.
    + now rewrite Hc, <- app_assoc.
    + intros k Hne. rewrite (Hk k Hne).
      destruct (lookup_fails self resolver suite node (lookup_name m));
        [now apply DictFacts.get_setdefault_other | reflexivity].
Qed.

(** C10. After [_preprocess_refs] has rewritten the docstring of a node,
    the entry of [unresolved] under the node's dot-joined path is the entry
    before the call followed by the lookup names of the matches whose
    lookup failed, one for each occurrence, in the order of the text. The
    lookup name of a match is the name given to the resolver (the calls
    made are the lookups of the matches, in order); it is the [ref] group,
    less its final period when that period was taken off, and so holds
    neither parenthesis nor [#]: no call suffix and nothing of the trailing
    group. *)
Theorem unresolved_entries_are_lookup_names content st content' st1 :
  obj_docstring (loc_obj node) = Some content ->
  _preprocess_refs self node resolver suite st = (Ok content', st1) ->
  let tokens := hits (finditer content) in
  let failed :=
    filter (fun m => lookup_fails self resolver suite node (lookup_name m))
      tokens in
  Dict.get_list (dotted node) (unresolved st1)
  = Dict.get_list (dotted node) (unresolved st) ++ map lookup_name failed
  /\ calls st1
     = calls st
       ++ flat_map (fun m => lookup_calls self resolver node (lookup_name m))
            tokens
  /\ Forall (fun m =>
               (g_ref m = lookup_name m
                \/ g_ref m = (lookup_name m ++ ".")%string)
               /\ Str.mem "#" (lookup_name m) = false
               /\ Str.mem "(" (lookup_name m) = false
               /\ Str.mem ")" (lookup_name m) = false) tokens.
Proof.
  intros Hd. unfold _preprocess_refs, re_sub. rewrite Hd. unfold bind.
  destruct (sub_pieces _ (finditer content) st) as [[o|e] s1] eqn:E;
    [|discriminate].
  unfold ret. intros [= _ <-]. cbn zeta.
  destruct (sub_pieces_report _ _ _ _ E) as (Hu & Hc & _).
  split; [exact Hu|split; [exact Hc|]].
  eapply Forall_impl; [|apply scan_well_formed].
  intros m Hm. pose proof (lookup_name_chars m Hm) as Hchars.
  split; [apply token_ref_cases|].
  repeat split; now apply (StrFacts.all_not_mem ref_char).
Qed.

End Report.

(** ** A second run *)

Section SecondRun.
Context {host : Host}.

Lemma settled_clear_start ps w w' :
  clear_start ps = true -> settled w ps = settled w' ps.
Proof.
  destruct ps as [|[c|m] ps]; [reflexivity| |reflexivity].
  cbn. now intros ->%negb_true_iff.
Qed.

Lemma match_at_no_ref prev s :
  fst (Str.span ref_char s) = EmptyString ->
  match_at prev (String "#" s) = None.
Proof.
  intros E. unfold match_at. destruct (non_boundary _ _); [|reflexivity].
  cbn [Ascii.eqb Bool.eqb]. cbv iota.
  destruct (Str.span ref_char s) as [a b]. cbn in E. now subst a.
Qed.

Lemma match_at_after_word prev s :
  wordness prev = true -> match_at prev (String "#" s) = None.
Proof.
  intros E. unfold match_at, non_boundary. fold (wordness prev).
  now rewrite E, is_word_hash.
Qed.

(** Why the matcher found nothing at a [#]. *)
Lemma match_at_none_hash prev s :
  match_at prev (String "#" s) = None ->
  wordness prev = true \/ fst (Str.span ref_char s) = EmptyString.
Proof.
  unfold match_at, non_boundary. fold (wordness prev). rewrite is_word_hash.
  destruct (wordness prev); [now left|]. cbn [Bool.eqb Ascii.eqb]. cbv iota.
  destruct (Str.span ref_char s) as [[|c a] b]; [now right|].
  destruct (opt_parens b) as [x y]. destruct (opt_trailing y). discriminate.
Qed.

Lemma span_empty_head p c s :
  p c = false -> fst (Str.span p (String c s)) = EmptyString.
Proof. intros E. cbn. now rewrite E. Qed.

Lemma span_empty_inv p c s :
  fst (Str.span p (String c s)) = EmptyString -> p c = false.
Proof.
  cbn. destruct (p c); [|reflexivity].
  destruct (Str.span p s). discriminate.
Qed.

(** The scan of the subject of a run prepares the scan of its output. *)
Lemma scan_settled s : forall skip prev,
  spaced (scan skip prev s) = true ->
  exists w,
    settled w (scan skip prev s) = true /\ (skip = 0 -> w = wordness prev).
Proof.
  induction s as [|c s IH]; intros skip prev Hsp.
  - exists (wordness prev). now split.
  - cbn [scan] in *. destruct skip as [|k].
    + exists (wordness prev). split; [|reflexivity].
      destruct (match_at prev (String c s)) as [m|] eqn:E.
      * cbn [spaced settled] in *. apply andb_prop in Hsp as [Hc Hsp].
        destruct (IH _ _ Hsp) as (w & Hw & _).
        now rewrite (settled_clear_start _ false w Hc).
      * cbn [spaced settled] in *.
        destruct (IH _ _ Hsp) as (w & Hw & Ew). rewrite (Ew eq_refl) in Hw.
        cbn [wordness] in Hw. rewrite Hw, andb_true_r.
        destruct (Ascii.eqb_spec c "#") as [->|]; [|reflexivity].
        apply match_at_none_hash in E as [E|E]; [now rewrite E|].
        apply orb_true_iff. right. apply negb_true_iff.
        destruct s as [|d s]; [reflexivity|].
        apply span_empty_inv in E. cbn [scan].
        now destruct (match_at (Some "#"%char) (String d s)).
    + destruct (IH _ _ Hsp) as (w & Hw & _). exists w. now split.
Qed.

(** A text without [#] is copied by the scan, which goes on after it. *)
Lemma scan_hash_free_prefix r : forall prev rest,
  Str.mem "#" r = false ->
  scan 0 prev (r ++ rest)
  = (map Lit (list_ascii_of_string r) ++ scan 0 (Str.last_or prev r) rest)%list.
Proof.
  induction r as [|c r IH]; intros prev rest Hm; [reflexivity|].
  cbn [Str.mem] in Hm. apply orb_false_iff in Hm as [Hc Hr].
  cbn [append scan list_ascii_of_string map app Str.last_or].
  destruct (match_at prev (String c (r ++ rest))) as [m|] eqn:E.
  - apply match_at_head in E. subst c. discriminate.
  - f_equal. now apply IH.
Qed.

Lemma list_ascii_append a b :
  list_ascii_of_string (a ++ b)
  = (list_ascii_of_string a ++ list_ascii_of_string b)%list.
Proof. induction a as [|c a IH]; [reflexivity|]. cbn. now rewrite IH. Qed.

Lemma rescan (repl : Match -> M string) ps : forall st out st1 prev w,
  sub_pieces repl ps st = (Ok out, st1) ->
  (forall m s r s', In m (hits ps) -> repl m s = (Ok r, s') -> inert r) ->
  spaced ps = true ->
  settled w ps = true ->
  w = wordness prev \/ clear_start ps = true ->
  scan 0 prev out = map Lit (list_ascii_of_string out).
Proof.
  induction ps as [|[c|m] ps IH]; intros st out st1 prev w Hrun Hrepl Hsp Hst Hw.
  - cbn in Hrun. now injection Hrun as <- _.
  - cbn [sub_pieces] in Hrun. unfold bind in Hrun.
    destruct (sub_pieces repl ps st) as [[o|e] s1] eqn:E; [|discriminate].
    unfold ret in Hrun. injection Hrun as <- _.
    cbn [spaced settled hits flat_map app] in *.
    apply andb_prop in Hst as [Hc Hst].
    assert (Hrest : scan 0 (Some c) o = map Lit (list_ascii_of_string o)).
    { apply (IH st o s1 (Some c) (is_word c) E Hrepl Hsp Hst). now left. }
    cbn [scan list_ascii_of_string map].
    destruct (match_at prev (String c o)) as [m|] eqn:Em; [|now rewrite Hrest].
    exfalso. pose proof (match_at_head _ _ _ _ Em) as ->.
    cbn [Ascii.eqb Bool.eqb clear_start negb] in *. cbv iota in Hc.
    destruct Hw as [->|Hw]; [|discriminate].
    apply orb_prop in Hc as [Hc|Hc].
    + now rewrite (match_at_after_word _ _ Hc) in Em.
    + apply negb_true_iff in Hc.
      rewrite match_at_no_ref in Em; [discriminate|].
      destruct ps as [|[d|m'] ps].
      * cbn in E. now injection E as <- _.
      * cbn [sub_pieces] in E. unfold bind in E.
        destruct (sub_pieces repl ps st) as [[o'|e] s2]; [|discriminate].
        unfold ret in E. injection E as <- _. now apply span_empty_head.
      * cbn [sub_pieces] in E. unfold bind in E.
        destruct (repl m' st) as [[r|e] s2] eqn:Er; [|discriminate].
        destruct (sub_pieces repl ps s2) as [[o'|e] s3]; [|discriminate].
        unfold ret in E. injection E as <- _.
        destruct (Hrepl m' st r s2 (or_introl eq_refl) Er)
          as (_ & c0 & r' & -> & Hc0).
        now apply span_empty_head.
  - cbn [sub_pieces] in Hrun. unfold bind in Hrun.
    destruct (repl m st) as [[r|e] s1] eqn:Er; [|discriminate].
    destruct (sub_pieces repl ps s1) as [[o|e] s2] eqn:E; [|discriminate].
    unfold ret in Hrun. injection Hrun as <- _.
    cbn [spaced settled hits flat_map app] in *.
    apply andb_prop in Hsp as [Hc Hsp].
    destruct (Hrepl m st r s1 (or_introl eq_refl) Er) as (Hr & _).
    rewrite (scan_hash_free_prefix r prev o Hr), list_ascii_append, map_app.
    f_equal.
    apply (IH s1 o s2 (Str.last_or prev r) false E); auto.
    intros m' s r0 s' Hin. apply Hrepl. now right.
Qed.

End SecondRun.

Section Idempotence.
Context {host : Host}.
Variables (self : CrossrefProcessor) (resolver : option Resolver)
          (suite : list ApiObject) (node : Located).

Lemma lstrip_trailing t :
  Str.truthy t = true ->
  Str.forallb_chars ref_char t = true ->
  Str.lstrip "#" (String "#" t) = t.
Proof.
  destruct t as [|c t]; [discriminate|]. intros _ [Hc _]%andb_prop.
  cbn. destruct (Ascii.eqb_spec c "#") as [->|]; [discriminate|reflexivity].
Qed.

Lemma text_hash_free m :
  well_formed m -> Str.mem "#" (text_of (token_of m)) = false.
Proof.
  intros (_ & Hr & Hp & Ht).
  assert (Hhash : forall s, Str.forallb_chars ref_char s = true ->
                            Str.mem "#" s = false)
    by (intros s; now apply StrFacts.all_not_mem).
  assert (Hparens : Str.mem "#" (or_empty (g_parens m)) = false)
    by (destruct Hp as [-> | ->]; reflexivity).
  assert (Htr : Str.forallb_chars ref_char
                  (Str.lstrip "#" (or_empty (g_trailing m))) = true).
  { destruct Ht as [-> | (t & -> & Ht1 & Ht2)]; [reflexivity|].
    cbn [or_empty]. now rewrite lstrip_trailing. }
  unfold text_of, token_of.
  destruct (Str.truthy _ && Str.endswith_dot _); cbn [ref parens trailing].
  - rewrite !StrFacts.mem_append, Hparens, (Hhash _ Hr).
    now rewrite (Hhash _ (StrFacts.drop_last_all _ _ Htr)).
  - destruct (negb _ && Str.endswith_dot (g_ref m)); cbn [ref parens trailing];
      rewrite !StrFacts.mem_append, Hparens, (Hhash _ Htr).
    + now rewrite (Hhash _ (StrFacts.drop_last_all _ _ Hr)).
    + now rewrite (Hhash _ Hr).
Qed.

Lemma inert_dot r (b : bool) :
  inert r -> inert (if b then r ++ "." else r).
Proof.
  destruct b; [|auto]. intros (Hm & c & r' & -> & Hc). split.
  - now rewrite StrFacts.mem_append, Hm.
  - now exists c, (r' ++ ".").
Qed.

Lemma fallback_inert m : well_formed m -> inert (fallback_text m).
Proof.
  intros Hm. unfold fallback_text. apply inert_dot. split.
  - unfold inline_code. rewrite !StrFacts.mem_append, (text_hash_free m Hm).
    reflexivity.
  - now exists "`"%char, (text_of (token_of m) ++ "`").
Qed.

Lemma substitution_inert m r :
  well_formed m ->
  addresses_hash_free resolver ->
  directives_hash_free self suite ->
  substitution self resolver suite node m = Ok r ->
  inert r.
Proof.
  intros Hm Ha Hd. unfold substitution.
  destruct (resolver_v2 self) as [r2|] eqn:E2.
  - destruct (resolve_reference r2 suite node (ref (token_of m)))
      as [[tg|]|e] eqn:E; [| |discriminate].
    + intros [= <-].
      apply (inert_dot (link_directive tg (text_of (token_of m)))
               (has_trailing_dot (token_of m))).
      split.
      * exact (Hd r2 node _ tg _ E2 E (text_hash_free m Hm)).
      * now eexists "{"%char, _.
    + intros [= <-]. now apply fallback_inert.
  - destruct resolver as [r0|] eqn:E1.
    + destruct (resolve_ref r0 node (ref (token_of m))) as [[h|]|e] eqn:E;
        [| |discriminate].
      * destruct (Str.truthy h); intros [= <-]; [|now apply fallback_inert].
        apply (inert_dot (hyperlink (text_of (token_of m)) h)
                 (has_trailing_dot (token_of m))).
        split.
        -- unfold hyperlink.
           rewrite !StrFacts.mem_append, (text_hash_free m Hm).
           now rewrite (Ha r0 node _ h eq_refl E).
        -- now eexists "["%char, _.
      * intros [= <-]. now apply fallback_inert.
    + intros [= <-]. now apply fallback_inert.
Qed.

Lemma in_hits_well_formed s m :
  In m (hits (finditer s)) -> well_formed m.
Proof.
  intros Hin. pose proof (scan_well_formed s 0 None) as Hall.
  rewrite Forall_forall in Hall. now apply Hall.
Qed.

(** C7, as the code has it. One run does not scan the text it puts in
    place of a match, but its output can hold text that the grammar
    matches. It holds none, and a second run of [_preprocess_refs] (with
    any processor, resolver and node) finds no match in it, calls no
    resolver and leaves text and state as they are, when in the docstring
    no match is directly followed by an unmatched [#] and when neither
    the addresses of the basic resolver nor the link directives hold
    a [#]. *)
Theorem second_run_finds_nothing content st out st1 :
  obj_docstring (loc_obj node) = Some content ->
  _preprocess_refs self node resolver suite st = (Ok (Some out), st1) ->
  spaced (finditer content) = true ->
  addresses_hash_free resolver ->
  directives_hash_free self suite ->
  hits (finditer out) = []
  /\ forall self' resolver' suite' node' st2,
       obj_docstring (loc_obj node') = Some out ->
       _preprocess_refs self' node' resolver' suite' st2 = (Ok (Some out), st2).
Proof.
  intros Hdoc Hrun Hsp Ha Hd.
  assert (Hscan : finditer out = map Lit (list_ascii_of_string out)).
  { unfold _preprocess_refs, re_sub in Hrun. rewrite Hdoc in Hrun.
    unfold bind in Hrun.
    destruct (sub_pieces _ (finditer content) st) as [[o|e] s1] eqn:E;
      [|discriminate].
    unfold ret in Hrun. injection Hrun as -> _.
    destruct (scan_settled content 0 None Hsp) as (w & Hw & Ew).
    unfold finditer.
    apply (rescan _ _ _ _ _ None w E); auto.
    intros m s r s' Hin Hr. rewrite handler_spec in Hr. injection Hr as Hr _.
    eapply substitution_inert; eauto.
    now apply (in_hits_well_formed content). }
  split.
  - rewrite Hscan. clear. induction (list_ascii_of_string out); auto.
  - intros self' resolver' suite' node' st2 Hdoc'.
    unfold _preprocess_refs, re_sub. rewrite Hdoc', Hscan.
    erewrite bind_ok by apply sub_pieces_lits.
    unfold ret. now rewrite string_of_list_ascii_of_string.
Qed.

End Idempotence.

(** * The properties on examples

    The host is [ascii_host]; the forest is the one module [pkg]. *)

Section Examples.
Local Open Scope list_scope.

(** C1 as stated fails: the typed resolver finds nothing for [Foo], the
    basic resolver would resolve [Foo] to [/api/foo], and the docstring
    [#Foo] becomes inline code, not a hyperlink; [Foo] is reported as
    unresolved and the basic resolver is never called. *)
Lemma basic_resolver_is_no_fallback :
  let doc := module_with "#Foo" in
  let run :=
    process (host := ascii_host) {| resolver_v2 := Some blind_v2 |} [doc]
      (Some foo_resolver) in
  resolve_reference blind_v2 [doc] (at_root doc) "Foo" = Returns None
  /\ resolve_ref foo_resolver (at_root doc) "Foo" = Returns (Some "/api/foo")
  /\ modules_after run = [module_with "`Foo`"]
  /\ modules_after run <> [module_with "[`Foo`](/api/foo)"]
  /\ report run = [("pkg", ["Foo"])]
  /\ resolver_calls run = [CallV2 (at_root doc) "Foo"].
Proof.
  cbn zeta. repeat split; try reflexivity.
  vm_compute. discriminate.
Qed.

Lemma typed_resolver_shadows_basic_witness :
  let node := at_root (module_with "#Foo") in
  let self := {| resolver_v2 := Some blind_v2 |} in
  let m := {| g_ref := "Foo"; g_parens := None; g_trailing := None |} in
  Some foo_resolver = Some foo_resolver
  /\ resolve_ref foo_resolver node (lookup_name m)
     = Returns (Some "/api/foo")
  /\ Str.truthy "/api/foo" = true
  /\ (forall r2, resolver_v2 self = Some r2 ->
        resolve_reference r2 [] node (lookup_name m)
        = Returns None)
  /\ handler (host := ascii_host) self (Some foo_resolver) [] node m initial
     = (Ok "`Foo`",
        {| unresolved := [("pkg", ["Foo"])]; calls := [CallV2 node "Foo"] |}).
Proof.
  cbn zeta.
  assert (H2 : forall r2, resolver_v2 {| resolver_v2 := Some blind_v2 |} = Some r2 ->
             resolve_reference r2 [] (at_root (module_with "#Foo"))
               (lookup_name
                  {| g_ref := "Foo"; g_parens := None; g_trailing := None |})
             = Returns None)
    by (intros r2 [= <-]; reflexivity).
  split; [reflexivity|]. split; [reflexivity|]. split; [reflexivity|].
  split; [exact H2|].
  exact (typed_resolver_shadows_basic (host := ascii_host)
           {| resolver_v2 := Some blind_v2 |} (Some foo_resolver) []
           (at_root (module_with "#Foo"))
           {| g_ref := "Foo"; g_parens := None; g_trailing := None |}
           initial foo_resolver "/api/foo" eq_refl eq_refl eq_refl H2).
Defined.

(** C2. The docstring [#this~Foo], with a basic resolver that resolves
    [Foo] to [/api/foo]: the pattern has no [~], the match is [#this], the
    name looked up is [this], which the resolver does not know, and the
    text becomes [`this`~Foo]. No hyperlink is made and [Foo] is never
    looked up. *)
Theorem rename_syntax_is_not_matched (host : Host) :
  let doc := module_with "#this~Foo" in
  let run := process {| resolver_v2 := None |} [doc] (Some foo_resolver) in
  finditer "#this~Foo"
  = [Hit {| g_ref := "this"; g_parens := None; g_trailing := None |};
     Lit "~"; Lit "F"; Lit "o"; Lit "o"]
  /\ modules_after run = [module_with "`this`~Foo"]
  /\ report run = [("pkg", ["this"])]
  /\ resolver_calls run = [CallBasic (at_root doc) "this"]
  /\ raised run = None.
Proof.
  cbn zeta. repeat split; reflexivity.
Qed.

(** C3 as stated fails: with no resolver, or with one that resolves
    nothing, [#Foo#bar] becomes [`Foobar`], not [`Foo#bar`]. *)
Lemma append_separator_is_dropped :
  let doc := module_with "#Foo#bar" in
  let run :=
    process (host := ascii_host) {| resolver_v2 := None |} [doc]
      (Some blind_resolver) in
  modules_after run = [module_with "`Foobar`"]
  /\ modules_after run <> [module_with "`Foo#bar`"]
  /\ report run = [("pkg", ["Foo"])]
  /\ resolver_calls run = [CallBasic (at_root doc) "Foo"]
  /\ modules_after
       (process (host := ascii_host) {| resolver_v2 := None |} [doc] None)
     = [module_with "`Foobar`"].
Proof.
  cbn zeta. repeat split; try reflexivity.
  vm_compute. discriminate.
Qed.

Lemma append_suffix_joined_witness :
  let node := at_root (module_with "#Foo#bar") in
  let self := {| resolver_v2 := Some blind_v2 |} in
  obj_docstring (loc_obj node) = Some "#Foo#bar"
  /\ unresolved_everywhere self (Some blind_resolver) [] node "Foo"
  /\ _preprocess_refs (host := ascii_host) self node (Some blind_resolver) []
       initial
     = (Ok (Some "`Foobar`"),
        {| unresolved := [("pkg", ["Foo"])]; calls := [CallV2 node "Foo"] |}).
Proof.
  cbn zeta.
  assert (Hu : unresolved_everywhere {| resolver_v2 := Some blind_v2 |}
                 (Some blind_resolver) [] (at_root (module_with "#Foo#bar")) "Foo")
    by (split; [intros r2 [= <-] | intros r [= <-]]; reflexivity).
  split; [reflexivity|]. split; [exact Hu|].
  exact (append_suffix_joined (host := ascii_host)
           {| resolver_v2 := Some blind_v2 |} (Some blind_resolver) []
           (at_root (module_with "#Foo#bar")) initial eq_refl Hu).
Defined.

Lemma trailing_period_preserved_witness :
  let node := at_root (module_with "See #Foo.") in
  let self := {| resolver_v2 := None |} in
  obj_docstring (loc_obj node) = Some "See #Foo."
  /\ unresolved_everywhere self (Some blind_resolver) [] node "Foo"
  /\ _preprocess_refs (host := ascii_host) self node (Some blind_resolver) []
       initial
     = (Ok (Some "See `Foo`."),
        {| unresolved := [("pkg", ["Foo"])]; calls := [CallBasic node "Foo"] |}).
Proof.
  cbn zeta.
  assert (Hu : unresolved_everywhere {| resolver_v2 := None |}
                 (Some blind_resolver) [] (at_root (module_with "See #Foo.")) "Foo")
    by (split; [intros r2 [=] | intros r [= <-]; reflexivity]).
  split; [reflexivity|]. split; [exact Hu|].
  exact (trailing_period_preserved (host := ascii_host)
           {| resolver_v2 := None |} (Some blind_resolver) []
           (at_root (module_with "See #Foo.")) initial eq_refl Hu).
Defined.

Lemma typed_resolver_priority_witness :
  let node := at_root (module_with "#Foo()") in
  let self := {| resolver_v2 := Some foo_v2 |} in
  let m := {| g_ref := "Foo"; g_parens := Some "()"; g_trailing := None |} in
  resolver_v2 self = Some foo_v2
  /\ resolve_reference foo_v2 [] node (lookup_name m)
     = Returns (Some foo_object)
  /\ handler (host := ascii_host) self (Some foo_resolver) [] node m initial
     = (Ok ("{@link pydoc:pkg.Foo :with " ++ plain_toml "Foo()" ++ "}")%string,
        {| unresolved := []; calls := [CallV2 node "Foo"] |}).
Proof.
  cbn zeta. split; [reflexivity|]. split; [reflexivity|].
  exact (proj1 (typed_resolver_priority (host := ascii_host)
                  {| resolver_v2 := Some foo_v2 |} (Some foo_resolver) []
                  (at_root (module_with "#Foo()"))
                  {| g_ref := "Foo"; g_parens := Some "()"; g_trailing := None |}
                  initial foo_v2 foo_object eq_refl eq_refl)).
Defined.

Lemma no_hash_docstring_untouched_witness :
  let node := at_root (module_with "Nothing to link (a.b is no reference).") in
  obj_docstring (loc_obj node)
  = Some "Nothing to link (a.b is no reference)."
  /\ Str.mem "#" "Nothing to link (a.b is no reference)." = false
  /\ _preprocess_refs (host := ascii_host) {| resolver_v2 := Some foo_v2 |}
       node (Some foo_resolver) [] initial
     = (Ok (Some "Nothing to link (a.b is no reference)."), initial).
Proof.
  cbn zeta. split; [reflexivity|]. split; [reflexivity|].
  exact (no_hash_docstring_untouched (host := ascii_host)
           {| resolver_v2 := Some foo_v2 |} (Some foo_resolver) []
           (at_root (module_with "Nothing to link (a.b is no reference)."))
           "Nothing to link (a.b is no reference)." initial eq_refl eq_refl).
Defined.

(** C7 as stated fails: with no resolver at all, the first run turns
    [#a#b#c] into [`ab`#c] (the third [#] follows a word character and
    starts no match); in the output it follows a backquote, so the grammar
    matches [#c] and the second run changes the text again. It fails as
    well when an address starts with [#]: the hyperlink of the first run
    holds a match for the second. *)
Lemma second_run_rewrites_again :
  let self := {| resolver_v2 := None |} in
  let first := process (host := ascii_host) self [module_with "#a#b#c"] None in
  let second := process (host := ascii_host) self (modules_after first) None in
  let linked :=
    process (host := ascii_host) self [module_with "#Foo"]
      (Some anchor_resolver) in
  let relinked :=
    process (host := ascii_host) self (modules_after linked)
      (Some anchor_resolver) in
  modules_after first = [module_with "`ab`#c"]
  /\ hits (finditer (host := ascii_host) "`ab`#c")
     = [{| g_ref := "c"; g_parens := None; g_trailing := None |}]
  /\ modules_after second = [module_with "`ab``c`"]
  /\ modules_after second <> modules_after first
  /\ modules_after linked = [module_with "[`Foo`](#Foo)"]
  /\ modules_after relinked = [module_with "[`Foo`]([`Foo`](#Foo))"]
  /\ modules_after relinked <> modules_after linked.
Proof.
  cbn zeta. repeat split; try reflexivity; vm_compute; discriminate.
Qed.

Lemma foo_resolver_hash_free : addresses_hash_free (Some foo_resolver).
Proof.
  intros r node name href [= <-]. cbn.
  destruct (String.eqb name "Foo"); [|discriminate].
  now intros [= <-].
Defined.

Lemma no_typed_resolver_hash_free (host : Host) suite :
  directives_hash_free {| resolver_v2 := None |} suite.
Proof. intros r2 node name target text [=]. Defined.

Lemma second_run_finds_nothing_witness :
  let content := "See #Foo. Also #a#b and #Bar()." in
  let out := "See [`Foo`](/api/foo). Also `ab` and `Bar()`." in
  let node := at_root (module_with content) in
  let self := {| resolver_v2 := None |} in
  let st1 :=
    {| unresolved := [("pkg", ["a"; "Bar"])];
       calls := [CallBasic node "Foo"; CallBasic node "a"; CallBasic node "Bar"] |} in
  obj_docstring (loc_obj node) = Some content
  /\ _preprocess_refs (host := ascii_host) self node (Some foo_resolver) []
       initial = (Ok (Some out), st1)
  /\ spaced (finditer (host := ascii_host) content) = true
  /\ hits (finditer (host := ascii_host) out) = []
  /\ _preprocess_refs (host := ascii_host) self (at_root (module_with out))
       (Some foo_resolver) [] st1 = (Ok (Some out), st1).
Proof.
  cbn zeta. split; [reflexivity|]. split; [reflexivity|]. split; [reflexivity|].
  pose proof (second_run_finds_nothing (host := ascii_host)
                {| resolver_v2 := None |} (Some foo_resolver) []
                (at_root (module_with "See #Foo. Also #a#b and #Bar()."))
                "See #Foo. Also #a#b and #Bar()." initial
                "See [`Foo`](/api/foo). Also `ab` and `Bar()`." _
                eq_refl eq_refl eq_refl foo_resolver_hash_free
                (no_typed_resolver_hash_free ascii_host [])) as [H1 H2].
  split; [exact H1|]. apply H2. reflexivity.
Defined.

Lemma unresolved_entries_are_lookup_names_witness :
  let content := "#Foo() and #Bar#s. Then #Bar. and #Baz()" in
  let node := at_root (module_with content) in
  let self := {| resolver_v2 := None |} in
  let st := {| unresolved := [("pkg", ["Old"])]; calls := [] |} in
  let st1 :=
    {| unresolved := [("pkg", ["Old"; "Bar"; "Bar"; "Baz"])];
       calls := [CallBasic node "Foo"; CallBasic node "Bar";
                 CallBasic node "Bar"; CallBasic node "Baz"] |} in
  obj_docstring (loc_obj node) = Some content
  /\ _preprocess_refs (host := ascii_host) self node (Some foo_resolver) [] st
     = (Ok (Some "[`Foo()`](/api/foo) and `Bars`. Then `Bar`. and `Baz()`"), st1)
  /\ Dict.get_list "pkg" (unresolved st1) = ["Old"; "Bar"; "Bar"; "Baz"].
Proof.
  cbn zeta. split; [reflexivity|]. split; [reflexivity|].
  exact (proj1 (unresolved_entries_are_lookup_names (host := ascii_host)
                  {| resolver_v2 := None |} (Some foo_resolver) []
                  (at_root (module_with "#Foo() and #Bar#s. Then #Bar. and #Baz()"))
                  "#Foo() and #Bar#s. Then #Bar. and #Baz()"
                  {| unresolved := [("pkg", ["Old"])]; calls := [] |}
                  _ _ eq_refl eq_refl)).
Defined.

(** An exception of the resolver ends the run: the first module is
    rewritten, the second is as it was, and the third is not visited. *)
Example failing_resolver_aborts :
  let run :=
    process (host := ascii_host) {| resolver_v2 := None |}
      [Obj "a" (Some "#Foo") []; Obj "b" (Some "#Ok #Bad #Later") [];
       Obj "c" (Some "#Never") []]
      (Some failing_resolver) in
  raised run = Some (Exception "lookup index is broken")
  /\ modules_after run
     = [Obj "a" (Some "`Foo`") []; Obj "b" (Some "#Ok #Bad #Later") [];
        Obj "c" (Some "#Never") []]
  /\ map call_ref (resolver_calls run) = ["Foo"; "Ok"; "Bad"]
  /\ warning run = None.
Proof. cbn zeta. repeat split; reflexivity. Qed.

End Examples.

(** * Further properties of a run *)

Section WholeRuns.
Context {host : Host}.
Local Open Scope list_scope.

Lemma preprocess_hash_free self resolver suite node st :
  hash_free (loc_obj node) = true ->
  _preprocess_refs self node resolver suite st
  = (Ok (obj_docstring (loc_obj node)), st).
Proof.
  destruct node as [path [n d ms]]. cbn [loc_obj hash_free obj_docstring].
  intros [Hd _]%andb_prop. unfold _preprocess_refs, re_sub, finditer. cbn.
  destruct d as [content|]; [|reflexivity].
  apply negb_true_iff in Hd. rewrite (scan_no_hash _ _ Hd).
  erewrite bind_ok by apply sub_pieces_lits.
  unfold ret. now rewrite string_of_list_ascii_of_string.
Qed.

Lemma visit_hash_free_from self resolver suite l :
  Forall (fun o => hash_free o = true ->
            forall anc st,
              visit_obj (fun x => _preprocess_refs self x resolver suite) anc o st
              = (o, st, None)) l ->
  forallb hash_free l = true ->
  forall anc st,
    visit (fun x => _preprocess_refs self x resolver suite) anc l st
    = (l, st, None).
Proof.
  induction 1 as [|x l Hx _ IHl]; intros Hl anc st; [reflexivity|].
  cbn [forallb] in Hl. apply andb_prop in Hl as [Hfx Hfl].
  cbn [visit]. now rewrite (Hx Hfx), (IHl Hfl).
Qed.

Lemma visit_obj_hash_free self resolver suite o :
  hash_free o = true ->
  forall anc st,
    visit_obj (fun x => _preprocess_refs self x resolver suite) anc o st
    = (o, st, None).
Proof.
  induction o as [n d ms IH] using ApiObject_members_ind. intros Ho anc st.
  rewrite visit_obj_eq, preprocess_hash_free by exact Ho.
  cbn [hash_free] in Ho. apply andb_prop in Ho as [_ Hms].
  now rewrite (visit_hash_free_from self resolver suite ms IH Hms).
Qed.

(** A forest in which no docstring holds a [#] is left as it is by
    [process], whatever the resolvers: nothing is looked up, nothing is
    reported and no warning is logged. *)
Theorem process_hash_free_forest self modules resolver :
  forallb hash_free modules = true ->
  process self modules resolver
  = {| modules_after := modules; raised := None; warning := None;
       report := []; resolver_calls := [] |}.
Proof.
  intros Hm. unfold process.
  rewrite (visit_hash_free_from self resolver modules modules); [reflexivity| |exact Hm].
  apply Forall_forall. intros o _ Ho. now apply visit_obj_hash_free.
Qed.

(** The call suffix is part of the link text: [#Foo()], with a basic
    resolver that knows [Foo], becomes a hyperlink on [`Foo()`]; the name
    looked up is [Foo]. *)
Theorem call_suffix_in_link_text resolver suite node st r href :
  obj_docstring (loc_obj node) = Some "#Foo()" ->
  resolver = Some r ->
  resolve_ref r node "Foo" = Returns (Some href) ->
  Str.truthy href = true ->
  _preprocess_refs {| resolver_v2 := None |} node resolver suite st
  = (Ok (Some ("[`Foo()`](" ++ href ++ ")")%string),
     {| unresolved := unresolved st;
        calls := calls st ++ [CallBasic node "Foo"] |}).
Proof.
  intros Hd Hr Hres Ht. unfold _preprocess_refs, re_sub. rewrite Hd.
  assert (E : finditer "#Foo()"
              = [Hit {| g_ref := "Foo"; g_parens := Some "()";
                        g_trailing := None |}]) by reflexivity.
  rewrite E. cbn [sub_pieces]. unfold bind.
  rewrite (handler_basic_found {| resolver_v2 := None |} resolver suite node
             {| g_ref := "Foo"; g_parens := Some "()"; g_trailing := None |}
             st r href eq_refl Hr Hres Ht).
  cbn. unfold ret. now rewrite StrFacts.append_empty.
Qed.

End WholeRuns.

Section MoreExamples.
Local Open Scope list_scope.

Lemma process_hash_free_forest_witness :
  let modules :=
    [Obj "pkg" (Some "A package.")
       [Obj "Foo" None [Obj "run" (Some "Runs (see a.b).") []]]] in
  forallb hash_free modules = true
  /\ process (host := ascii_host) {| resolver_v2 := Some foo_v2 |} modules
       (Some failing_resolver)
     = {| modules_after := modules; raised := None; warning := None;
          report := []; resolver_calls := [] |}.
Proof.
  cbn zeta. split; [reflexivity|].
  exact (process_hash_free_forest (host := ascii_host)
           {| resolver_v2 := Some foo_v2 |}
           [Obj "pkg" (Some "A package.")
              [Obj "Foo" None [Obj "run" (Some "Runs (see a.b).") []]]]
           (Some failing_resolver) eq_refl).
Defined.

Lemma call_suffix_in_link_text_witness :
  let node := at_root (module_with "#Foo()") in
  obj_docstring (loc_obj node) = Some "#Foo()"
  /\ resolve_ref foo_resolver node "Foo" = Returns (Some "/api/foo")
  /\ Str.truthy "/api/foo" = true
  /\ _preprocess_refs (host := ascii_host) {| resolver_v2 := None |} node
       (Some foo_resolver) [] initial
     = (Ok (Some "[`Foo()`](/api/foo)"),
        {| unresolved := []; calls := [CallBasic node "Foo"] |}).
Proof.
  cbn zeta. split; [reflexivity|]. split; [reflexivity|]. split; [reflexivity|].
  exact (call_suffix_in_link_text (host := ascii_host) (Some foo_resolver) []
           (at_root (module_with "#Foo()")) initial foo_resolver "/api/foo"
           eq_refl eq_refl eq_refl eq_refl).
Defined.

(** Two objects with one unresolved reference each: the report has one
    entry for each, under its dot-joined path, and the warning counts two
    references. *)
Example report_of_two_objects :
  let run :=
    process (host := ascii_host) {| resolver_v2 := None |}
      [Obj "pkg" (Some "Uses #Alpha.") [Obj "Foo" (Some "See #Beta()") []]]
      None in
  report run = [("pkg", ["Alpha"]); ("pkg.Foo", ["Beta"])]
  /\ modules_after run
     = [Obj "pkg" (Some "Uses `Alpha`.") [Obj "Foo" (Some "See `Beta()`") []]]
  /\ warning run
     = Some ("2 cross-reference(s) could not be resolved:" ++ Str.nl
             ++ "  pkg: Alpha" ++ Str.nl ++ "  pkg.Foo: Beta")%string.
Proof. cbn zeta. repeat split; reflexivity. Qed.

End MoreExamples.

(** * The grammar and the scan, further *)

Section Separators.
Context {host : Host}.
Local Open Scope list_scope.

Lemma span_app_stop p x c b :
  p c = false ->
  Str.span p (x ++ String c b)
  = (fst (Str.span p x), (snd (Str.span p x) ++ String c b)%string).
Proof.
  intros Hc. induction x as [|d x IH]; cbn.
  - now rewrite Hc.
  - destruct (p d); [|reflexivity]. rewrite IH.
    now destruct (Str.span p x).
Qed.

Lemma separator_inv c :
  separator c = true ->
  ref_char c = false /\ c <> "#"%char /\ c <> "("%char /\ c <> ")"%char.
Proof.
  unfold separator. intros H.
  apply andb_prop in H as [H H4]. apply andb_prop in H as [H H3].
  apply andb_prop in H as [H1 H2].
  apply negb_true_iff in H1, H2, H3, H4.
  repeat split; trivial; intros ->; discriminate.
Qed.

Lemma opt_parens_app s c b :
  separator c = true ->
  opt_parens (s ++ String c b)
  = (fst (opt_parens s), (snd (opt_parens s) ++ String c b)%string).
Proof.
  intros (_ & _ & Ho & Hc)%separator_inv. unfold opt_parens.
  destruct s as [|x [|y r]]; cbn.
  - destruct b; [reflexivity|].
    destruct (Ascii.eqb_spec c "("); [contradiction|reflexivity].
  - destruct (Ascii.eqb_spec c ")"); [contradiction|].
    now rewrite andb_false_r.
  - now destruct (Ascii.eqb x "(" && Ascii.eqb y ")").
Qed.

Lemma opt_trailing_app s c b :
  separator c = true ->
  opt_trailing (s ++ String c b)
  = (fst (opt_trailing s), (snd (opt_trailing s) ++ String c b)%string).
Proof.
  intros Hsep. pose proof (separator_inv c Hsep) as (Hr & Hh & _).
  unfold opt_trailing. destruct s as [|x r]; cbn.
  - destruct (Ascii.eqb_spec c "#"); [contradiction|reflexivity].
  - destruct (Ascii.eqb x "#"); [|reflexivity].
    rewrite (span_app_stop ref_char r c b Hr).
    now destruct (Str.span ref_char r) as [[|d t] r'].
Qed.

(** What follows a separator does not change the match tried before it. *)
Lemma match_at_app prev d x c b :
  separator c = true ->
  match_at prev (String d x ++ String c b) = match_at prev (String d x).
Proof.
  intros Hsep. pose proof (separator_inv c Hsep) as (Hr & _).
  unfold match_at.
  change (non_boundary prev (String d x ++ String c b))
    with (non_boundary prev (String d x)).
  destruct (non_boundary prev (String d x)); [|reflexivity].
  cbn [append]. destruct (Ascii.eqb d "#"); [|reflexivity].
  rewrite (span_app_stop ref_char x c b Hr).
  destruct (Str.span ref_char x) as [[|e r] s2]; [reflexivity|].
  cbn [fst snd]. rewrite (opt_parens_app s2 c b Hsep).
  destruct (opt_parens s2) as [p s3]. cbn [fst snd].
  rewrite (opt_trailing_app s3 c b Hsep).
  now destruct (opt_trailing s3) as [t s4].
Qed.

Lemma append_length a b :
  String.length (a ++ b) = String.length a + String.length b.
Proof. induction a as [|c a IH]; [reflexivity|]. cbn. now rewrite IH. Qed.

Lemma match_at_length prev s m :
  match_at prev s = Some m -> String.length (group0 m) <= String.length s.
Proof.
  intros (rest & ->)%match_at_covers. rewrite append_length.
  apply Nat.le_add_r.
Qed.

(** The first match tried depends on the character before only through
    its being a word character or not. *)
Lemma scan_prev s prev prev' :
  wordness prev = wordness prev' -> scan 0 prev s = scan 0 prev' s.
Proof.
  intros E. destruct s as [|c s]; [reflexivity|]. cbn [scan].
  assert (Em : match_at prev (String c s) = match_at prev' (String c s)).
  { unfold match_at, non_boundary. fold (wordness prev) (wordness prev').
    now rewrite E. }
  now rewrite Em.
Qed.

Lemma scan_app c b : separator c = true ->
  forall x skip prev,
    skip <= String.length x ->
    scan skip prev (x ++ String c b)
    = scan skip prev x ++ Lit c :: scan 0 (Some c) b.
Proof.
  intros Hsep. pose proof (separator_inv c Hsep) as (_ & Hh & _).
  induction x as [|d x IH]; intros skip prev Hk.
  - apply Nat.le_0_r in Hk. subst skip. cbn [append scan app].
    destruct (match_at prev (String c b)) as [m|] eqn:E; [|reflexivity].
    apply match_at_head in E. contradiction.
  - destruct skip as [|k].
    + change (String d x ++ String c b)%string
        with (String d (x ++ String c b)) at 1.
      cbn [scan].
      change (String d (x ++ String c b))
        with (String d x ++ String c b)%string.
      rewrite (match_at_app prev d x c b Hsep).
      destruct (match_at prev (String d x)) as [m|] eqn:E.
      * cbn [app]. f_equal. apply IH.
        apply match_at_length in E. cbn [String.length] in E.
        apply Nat.le_sub_le_add_l. exact E.
      * cbn [app]. f_equal. apply IH. apply Nat.le_0_l.
    + cbn [append scan]. apply IH. cbn in Hk. now apply Nat.succ_le_mono.
Qed.

Lemma sub_pieces_app (repl : Match -> M string) ps1 ps2 st :
  sub_pieces repl (ps1 ++ ps2) st
  = (o1 <- sub_pieces repl ps1 ;;
     o2 <- sub_pieces repl ps2 ;;
     ret (o1 ++ o2)%string) st.
Proof.
  revert st. induction ps1 as [|[c|m] ps1 IH]; intros st.
  - cbn [app sub_pieces]. unfold bind, ret.
    now destruct (sub_pieces repl ps2 st) as [[o|e] s1].
  - cbn [app sub_pieces]. unfold bind, ret. rewrite IH. unfold bind, ret.
    destruct (sub_pieces repl ps1 st) as [[o1|e] s1]; [|reflexivity].
    now destruct (sub_pieces repl ps2 s1) as [[o2|e] s2].
  - cbn [app sub_pieces]. unfold bind, ret.
    destruct (repl m st) as [[r|e] s0]; [|reflexivity].
    rewrite IH. unfold bind, ret.
    destruct (sub_pieces repl ps1 s0) as [[o1|e] s1]; [|reflexivity].
    destruct (sub_pieces repl ps2 s1) as [[o2|e] s2]; [|reflexivity].
    now rewrite StrFacts.append_assoc.
Qed.

(** The parts of a text on the two sides of a separator (a space, a line
    break, a comma) are scanned and rewritten each on its own: the matches
    of the text are those of the first part and then those of the second,
    and [re.sub] gives the first part rewritten, the separator and the
    second part rewritten, the replacement function being called for the
    first part first. *)
Theorem references_stop_at_separators a c b (repl : Match -> M string) st :
  separator c = true ->
  finditer (a ++ String c b) = finditer a ++ Lit c :: finditer b
  /\ re_sub repl (a ++ String c b) st
     = (o1 <- re_sub repl a ;;
        o2 <- re_sub repl b ;;
        ret (o1 ++ String c o2)%string) st.
Proof.
  intros Hsep.
  assert (E : finditer (a ++ String c b) = finditer a ++ Lit c :: finditer b).
  { unfold finditer. rewrite (scan_app c b Hsep a 0 None (Nat.le_0_l _)).
    do 2 f_equal. apply scan_prev. cbn.
    pose proof (separator_inv c Hsep) as (Hr & _). unfold ref_char in Hr.
    now destruct (is_word c). }
  split; [exact E|].
  unfold re_sub. rewrite E, sub_pieces_app. cbn [sub_pieces]. unfold bind, ret.
  destruct (sub_pieces repl (finditer a) st) as [[o1|e] s1]; [|reflexivity].
  now destruct (sub_pieces repl (finditer b) s1) as [[o2|e] s2].
Qed.

End Separators.

Section Recognition.
Context {host : Host}.
Local Open Scope list_scope.

Lemma span_all_stop p x rest :
  Str.forallb_chars p x = true ->
  match rest with String c _ => p c = false | EmptyString => True end ->
  Str.span p (x ++ rest) = (x, rest).
Proof.
  intros Hx Hrest. induction x as [|d x IH]; cbn.
  - destruct rest as [|c rest]; [reflexivity|]. cbn. now rewrite Hrest.
  - cbn in Hx. apply andb_prop in Hx as [Hd Hx]. now rewrite Hd, (IH Hx).
Qed.

Lemma scan_skip_all s : forall k prev,
  String.length s <= k -> scan k prev s = [].
Proof.
  induction s as [|c s IH]; intros k prev Hk; [reflexivity|].
  destruct k as [|k]; [inversion Hk|]. cbn [scan]. apply IH.
  cbn in Hk. now apply Nat.succ_le_mono.
Qed.

Lemma match_at_group0 m :
  well_formed m -> match_at None (group0 m) = Some m.
Proof.
  destruct m as [r p t]. intros (Hr1 & Hr2 & Hp & Ht). cbn in Hr1, Hr2, Hp, Ht.
  unfold group0, match_at. cbn [g_ref g_parens g_trailing append].
  change (non_boundary None (String "#" (r ++ or_empty p ++ or_empty t)))
    with true.
  change (Ascii.eqb "#" "#") with true. cbv iota.
  assert (Hspan : Str.span ref_char (r ++ or_empty p ++ or_empty t)
                  = (r, (or_empty p ++ or_empty t)%string)).
  { apply span_all_stop; [exact Hr2|].
    destruct Hp as [-> | ->]; [|reflexivity].
    destruct Ht as [-> | (u & -> & _)]; [exact I|reflexivity]. }
  rewrite Hspan. destruct r as [|c r]; [discriminate|].
  destruct Hp as [-> | ->]; destruct Ht as [-> | (u & -> & Hu1 & Hu2)];
    cbn [or_empty append opt_parens opt_trailing Ascii.eqb Bool.eqb andb];
    cbv iota; try reflexivity.
  - assert (E : Str.span ref_char u = (u, EmptyString)).
    { rewrite <- (StrFacts.append_empty u) at 1. now apply span_all_stop. }
    destruct u as [|d u]; [discriminate|]. cbn -[Str.span]. rewrite E.
    reflexivity.
  - assert (E : Str.span ref_char u = (u, EmptyString)).
    { rewrite <- (StrFacts.append_empty u) at 1. now apply span_all_stop. }
    cbn -[Str.span]. rewrite E. now destruct u.
Qed.

Lemma finditer_group0 m : well_formed m -> finditer (group0 m) = [Hit m].
Proof.
  intros Hm. pose proof (match_at_group0 m Hm) as E.
  unfold finditer. unfold group0 in *. cbn [append] in *. cbn [scan].
  rewrite E. f_equal. apply scan_skip_all. unfold group0.
  cbn [append String.length Nat.sub]. rewrite Nat.sub_0_r. apply Nat.le_refl.
Qed.

(** The text of a reference is read back as that reference: for groups as
    the pattern makes them (a name of reference characters, then [()] or
    nothing, then [#] with a suffix of reference characters or nothing),
    the text [#] name [()] [#suffix] holds one match, with these very
    groups, and nothing beside it. *)
Theorem reference_text_is_one_match m :
  well_formed m ->
  finditer (group0 m) = [Hit m]
  /\ forall repl st, re_sub repl (group0 m) st = repl m st.
Proof.
  intros Hm. split; [now apply finditer_group0|].
  intros repl st. unfold re_sub. rewrite (finditer_group0 m Hm).
  cbn [sub_pieces]. unfold bind, ret.
  destruct (repl m st) as [[r|e] s1]; [|reflexivity].
  now rewrite StrFacts.append_empty.
Qed.






End Recognition.

(** * The period of a reference, further *)

Section Periods.
Context {host : Host}.
Local Open Scope list_scope.

Lemma drop_last_empty s :
  Str.endswith_dot s = true ->
  (Str.drop_last s = EmptyString <-> s = "."%string).
Proof.
  destruct s as [|c [|d s]]; [discriminate| |].
  - cbn. destruct (Ascii.eqb_spec c "."); [|discriminate]. subst c.
    now split.
  - intros _. cbn. split; discriminate.
Qed.

Lemma endswith_dot_cons c s :
  Str.truthy s = true ->
  Str.endswith_dot (String c s) = Str.endswith_dot s.
Proof. now destruct s. Qed.

Lemma truthy_nonempty s : Str.truthy s = true -> s <> EmptyString.
Proof. now destruct s. Qed.

(** The name given to the resolver is empty for one kind of reference
    only: for every match found in a docstring, the lookup name is empty
    exactly when the [ref] group is a single period, there is no call
    suffix, and the trailing group (if any) does not end with a period,
    as in the text [#.]: the one period is taken for the end of a
    sentence and nothing is left of the name. *)
Theorem lookup_name_empty_iff content m :
  In m (hits (finditer content)) ->
  (lookup_name m = EmptyString
   <-> g_ref m = "."%string /\ g_parens m = None
       /\ Str.endswith_dot (or_empty (g_trailing m)) = false).
Proof.
  intros Hin. pose proof (in_hits_well_formed _ _ Hin) as (Hr1 & _ & Hp & Ht).
  pose proof (truthy_nonempty _ Hr1) as Hne.
  unfold lookup_name, token_of.
  assert (Htr : Str.truthy (Str.lstrip "#" (or_empty (g_trailing m)))
                && Str.endswith_dot (Str.lstrip "#" (or_empty (g_trailing m)))
                = Str.endswith_dot (or_empty (g_trailing m))).
  { destruct Ht as [-> | (u & -> & Hu1 & Hu2)]; [reflexivity|].
    cbn [or_empty]. rewrite (lstrip_trailing u Hu1 Hu2), Hu1.
    now rewrite (endswith_dot_cons _ u Hu1). }
  rewrite Htr.
  destruct (Str.endswith_dot (or_empty (g_trailing m))); cbn [ref].
  - split; [contradiction|]. now intros (_ & _ & ?).
  - destruct Hp as [Hp | Hp]; rewrite Hp; cbn [or_empty Str.truthy negb andb].
    + destruct (Str.endswith_dot (g_ref m)) eqn:Ed; cbn [ref].
      * rewrite (drop_last_empty _ Ed). now intuition.
      * split; [contradiction|]. intros (E & _). rewrite E in Ed. discriminate.
    + split; [contradiction|]. now intros (_ & ? & _).
Qed.

Lemma endswith_dot_append s : Str.endswith_dot (s ++ ".") = true.
Proof.
  induction s as [|c s IH]; [reflexivity|]. cbn [append].
  rewrite endswith_dot_cons; [exact IH|]. now destruct s.
Qed.

Lemma drop_last_append s : Str.drop_last (s ++ ".") = s.
Proof.
  induction s as [|c s IH]; [reflexivity|]. cbn [append].
  destruct (s ++ ".")%string eqn:E; [now destruct s|].
  cbn [Str.drop_last]. now rewrite <- IH.
Qed.

Lemma forallb_chars_append p a b :
  Str.forallb_chars p (a ++ b)
  = Str.forallb_chars p a && Str.forallb_chars p b.
Proof.
  induction a as [|c a IH]; [reflexivity|]. cbn. now rewrite IH, andb_assoc.
Qed.

(** A period between a name and the suffix appended to it goes behind
    the code span: the docstring [#name.#suffix], with [name] unresolved,
    becomes [`namesuffix`.]; the name looked up and recorded is [name],
    without the period. The [ref] group loses its last period whenever
    there is no call suffix and the trailing group does not end with a
    period, whether a trailing group follows or not. *)
Theorem period_moves_behind_suffix self resolver suite node name suffix st :
  Str.forallb_chars ref_char name = true ->
  Str.forallb_chars ref_char suffix = true ->
  Str.truthy suffix = true ->
  Str.endswith_dot suffix = false ->
  obj_docstring (loc_obj node)
  = Some ("#" ++ (name ++ ".") ++ "#" ++ suffix)%string ->
  unresolved_everywhere self resolver suite node name ->
  _preprocess_refs self node resolver suite st
  = (Ok (Some ("`" ++ (name ++ suffix) ++ "`.")%string),
     {| unresolved :=
          Dict.setdefault_append (dotted node) name (unresolved st);
        calls := calls st ++ lookup_calls self resolver node name |}).
Proof.
  intros Hn Hs Hs1 Hs2 Hd Hu. apply unresolved_everywhere_fails in Hu.
  set (m := {| g_ref := (name ++ ".")%string; g_parens := None;
               g_trailing := Some (String "#" suffix) |}).
  assert (Hm : well_formed m).
  { unfold well_formed, m. cbn [g_ref g_parens g_trailing].
    repeat split.
    - now destruct name.
    - now rewrite forallb_chars_append, Hn.
    - now left.
    - right. now exists suffix. }
  assert (Etok : token_of m
                 = {| ref := name; parens := EmptyString; trailing := suffix;
                      has_trailing_dot := true |}).
  { unfold token_of, m. cbn [g_ref g_parens g_trailing or_empty].
    rewrite (lstrip_trailing suffix Hs1 Hs), Hs1, Hs2.
    cbn [andb Str.truthy negb]. rewrite endswith_dot_append.
    now rewrite drop_last_append. }
  assert (En : lookup_name m = name) by (unfold lookup_name; now rewrite Etok).
  unfold _preprocess_refs, re_sub. rewrite Hd.
  change ("#" ++ (name ++ ".") ++ "#" ++ suffix)%string with (group0 m).
  rewrite (finditer_group0 m Hm). cbn [sub_pieces]. unfold bind.
  rewrite handler_unresolved by (rewrite En; exact Hu).
  rewrite En. unfold fallback_text, ret. rewrite Etok.
  unfold inline_code, text_of. cbn [has_trailing_dot ref parens trailing append].
  now rewrite StrFacts.append_empty, !StrFacts.append_assoc.
Qed.

End Periods.

(** * Whole runs, further *)

Section Flattening.
Variable func : Located -> M (option string).
Local Open Scope list_scope.

Lemma docs_located_from anc l :
  Forall (fun o => forall anc, map doc_of (located_of anc o) = docs_of o) l ->
  map doc_of (flat_map (located_of anc) l) = docs l.
Proof.
  unfold docs. induction 1 as [|x l Hx _ IHl]; [reflexivity|].
  cbn [flat_map]. now rewrite map_app, Hx, IHl.
Qed.

Lemma docs_located_of o : forall anc,
  map doc_of (located_of anc o) = docs_of o.
Proof.
  induction o as [n d ms IH] using ApiObject_members_ind. intros anc.
  cbn [located_of docs_of map]. f_equal. exact (docs_located_from _ ms IH).
Qed.

Lemma docs_located anc l : map doc_of (flat_map (located_of anc) l) = docs l.
Proof.
  apply docs_located_from, Forall_forall. intros o _. apply docs_located_of.
Qed.

Lemma run_nodes_app ns1 ns2 st :
  run_nodes func (ns1 ++ ns2) st
  = match run_nodes func ns1 st with
    | (ds, st1, Some e) => (ds ++ map doc_of ns2, st1, Some e)
    | (ds, st1, None) =>
        let '(ds2, st2, e) := run_nodes func ns2 st1 in (ds ++ ds2, st2, e)
    end.
Proof.
  revert st. induction ns1 as [|node ns1 IH]; intros st.
  - cbn. now destruct (run_nodes func ns2 st) as [[ds2 st2] e].
  - cbn [app run_nodes]. destruct (func node st) as [[d'|e] st1].
    + rewrite IH. destruct (run_nodes func ns1 st1) as [[ds s1] [e|]];
        [reflexivity|].
      now destruct (run_nodes func ns2 s1) as [[ds2 s2] e].
    + now rewrite <- map_app.
Qed.

Lemma visit_flat_from l :
  Forall (fun o => forall anc st,
            run_nodes func (located_of anc o) st
            = let '(o', st', e) := visit_obj func anc o st in
              (docs_of o', st', e)) l ->
  forall anc st,
    run_nodes func (flat_map (located_of anc) l) st
    = let '(l', st', e) := visit func anc l st in (docs l', st', e).
Proof.
  induction 1 as [|x l Hx _ IHl]; intros anc st; [reflexivity|].
  cbn [flat_map visit]. rewrite run_nodes_app, Hx.
  destruct (visit_obj func anc x st) as [[x' s2] [e|]].
  - now rewrite docs_located.
  - rewrite IHl. now destruct (visit func anc l s2) as [[l' s3] e].
Qed.

Lemma visit_obj_flat o : forall anc st,
  run_nodes func (located_of anc o) st
  = let '(o', st', e) := visit_obj func anc o st in (docs_of o', st', e).
Proof.
  induction o as [n d ms IH] using ApiObject_members_ind. intros anc st.
  rewrite visit_obj_eq. cbn [located_of run_nodes].
  destruct (func _ st) as [[d'|e] st1].
  - rewrite (visit_flat_from ms IH).
    now destruct (visit func (anc ++ [n]) ms st1) as [[ms' st2] e].
  - cbn [map docs_of]. now rewrite docs_located.
Qed.

(** The traversal is the loop over the objects in their order. *)
Lemma visit_flat l anc st :
  run_nodes func (flat_map (located_of anc) l) st
  = let '(l', st', e) := visit func anc l st in (docs l', st', e).
Proof.
  apply visit_flat_from, Forall_forall. intros o _. apply visit_obj_flat.
Qed.

End Flattening.

Section Loop.
Context {host : Host}.
Variables (self : CrossrefProcessor) (resolver : option Resolver)
          (suite : list ApiObject).
Local Open Scope list_scope.

Abbreviation func := (fun x => _preprocess_refs self x resolver suite).

(** A relation between states that every call of [handler] on a match of
    the docstring of an object of [nodes] respects holds between the start
    and the end of the loop, however it ends. *)
Section Invariant.
Variables (nodes : list Located) (R : State -> State -> Prop).
Hypothesis R_refl : forall st, R st st.
Hypothesis R_trans : forall a b c, R a b -> R b c -> R a c.
Hypothesis R_handler : forall node content m st,
  In node nodes -> doc_of node = Some content ->
  In m (hits (finditer content)) ->
  R st (snd (handler self resolver suite node m st)).

Lemma sub_pieces_rel node ps :
  (forall m st, In m (hits ps) ->
                R st (snd (handler self resolver suite node m st))) ->
  forall st, R st (snd (sub_pieces (handler self resolver suite node) ps st)).
Proof.
  induction ps as [|[c|m] ps IH]; intros Hstep st.
  - apply R_refl.
  - cbn [sub_pieces]. unfold bind. specialize (IH Hstep st).
    destruct (sub_pieces _ ps st) as [[o|e] s1]; exact IH.
  - cbn [sub_pieces]. unfold bind.
    pose proof (Hstep m st (or_introl eq_refl)) as Hm.
    destruct (handler self resolver suite node m st) as [[r|e] s1];
      [|exact Hm].
    assert (IH' : R s1 (snd (sub_pieces (handler self resolver suite node) ps s1)))
      by (apply IH; intros m' st' Hin; apply Hstep; now right).
    cbn [snd] in Hm.
    destruct (sub_pieces _ ps s1) as [[o|e] s2]; cbn [snd] in *;
      eapply R_trans; eauto.
Qed.

Lemma preprocess_rel node st :
  In node nodes -> R st (snd (_preprocess_refs self node resolver suite st)).
Proof.
  intros Hin. unfold _preprocess_refs. fold (doc_of node).
  destruct (doc_of node) as [content|] eqn:Ed; [|apply R_refl].
  unfold bind, re_sub.
  pose proof (sub_pieces_rel node (finditer content)
                (fun m st' Hm => R_handler node content m st' Hin Ed Hm) st) as H.
  destruct (sub_pieces _ (finditer content) st) as [[o|e] s1]; exact H.
Qed.

Lemma run_nodes_rel ns : incl ns nodes ->
  forall st, R st (snd (fst (run_nodes func ns st))).
Proof.
  induction ns as [|node ns IH]; intros Hincl st; [apply R_refl|].
  cbn [run_nodes].
  pose proof (preprocess_rel node st (Hincl node (or_introl eq_refl))) as Hn.
  destruct (_preprocess_refs self node resolver suite st) as [[d'|e] s1];
    [|exact Hn].
  assert (IH' : R s1 (snd (fst (run_nodes func ns s1))))
    by (apply IH; intros x Hx; apply Hincl; now right).
  destruct (run_nodes func ns s1) as [[ds s2] e]. cbn [fst snd] in *.
  eapply R_trans; eauto.
Qed.

End Invariant.

(** The loop when it ends without exception, and the docstrings it leaves
    when it does not. *)
Lemma run_nodes_docs ns : forall st ds st' e,
  run_nodes func ns st = (ds, st', e) ->
  exists k,
    ds = firstn k (map (rewritten_doc self resolver suite) ns)
         ++ skipn k (map doc_of ns)
    /\ (e = None -> k = List.length ns)
    /\ (e <> None -> k < List.length ns).
Proof.
  induction ns as [|node ns IH]; intros st ds st' e.
  - cbn. intros [= <- _ <-]. exists 0. now repeat split.
  - cbn [run_nodes].
    destruct (_preprocess_refs self node resolver suite st) as [[d'|x] s1] eqn:E.
    + apply preprocess_text in E as [-> _].
      destruct (run_nodes func ns s1) as [[ds1 s2] e1] eqn:E1.
      intros [= <- _ <-]. destruct (IH _ _ _ _ E1) as (k & -> & Hk1 & Hk2).
      exists (S k). cbn [map firstn skipn app List.length]. repeat split.
      * intros He. now rewrite (Hk1 He).
      * intros He. apply -> Nat.succ_lt_mono. now apply Hk2.
    + intros [= <- _ <-]. exists 0. cbn [firstn skipn app List.length].
      repeat split; [discriminate | intros _; apply Nat.lt_0_succ].
Qed.

Lemma preprocess_calls node st d' st1 :
  _preprocess_refs self node resolver suite st = (Ok d', st1) ->
  calls st1 = calls st ++ calls_of_node self resolver node.
Proof.
  unfold _preprocess_refs, calls_of_node, re_sub. fold (doc_of node).
  destruct (doc_of node) as [content|].
  - unfold bind.
    destruct (sub_pieces _ (finditer content) st) as [[o|e] s1] eqn:E;
      [|discriminate].
    unfold ret. intros [= _ <-].
    exact (proj1 (proj2 (sub_pieces_report _ _ _ _ _ _ _ _ E))).
  - unfold ret. intros [= _ <-]. now rewrite app_nil_r.
Qed.

Lemma total_setdefault k x d :
  total_refs (Dict.setdefault_append k x d) = S (total_refs d).
Proof.
  unfold total_refs. induction d as [|[k' v] d IH]; [reflexivity|].
  cbn [Dict.setdefault_append]. destruct (String.eqb k' k); cbn in *.
  - rewrite length_app. cbn. lia.
  - unfold list_sum in *. lia.
Qed.

Lemma total_record_all uid names : forall d,
  total_refs (record_all uid names d) = total_refs d + List.length names.
Proof.
  unfold record_all.
  induction names as [|x names IH]; intros d; cbn [fold_left List.length].
  - lia.
  - rewrite IH, total_setdefault. lia.
Qed.

Lemma run_nodes_complete ns : forall st ds st',
  run_nodes func ns st = (ds, st', None) ->
  calls st' = calls st ++ flat_map (calls_of_node self resolver) ns
  /\ total_refs (unresolved st')
     = total_refs (unresolved st)
       + List.length (flat_map (failed_of_node self resolver suite) ns).
Proof.
  induction ns as [|node ns IH]; intros st ds st'.
  - cbn. intros [= _ <-]. now rewrite app_nil_r, Nat.add_0_r.
  - cbn [run_nodes flat_map].
    destruct (_preprocess_refs self node resolver suite st) as [[d'|x] s1] eqn:E;
      [|discriminate].
    destruct (run_nodes func ns s1) as [[ds1 s2] e1] eqn:E1.
    intros [= _ <- ->]. destruct (IH _ _ _ E1) as [-> ->].
    rewrite (preprocess_calls _ _ _ _ E).
    apply preprocess_text in E as [_ E]. rewrite E. unfold failed_of_node.
    fold (doc_of node). split; [now rewrite app_assoc|].
    rewrite length_app.
    destruct (doc_of node); [rewrite total_record_all|cbn]; lia.
Qed.

End Loop.

Module ReportFacts.

Lemma in_keys_setdefault k x d y :
  In y (map fst (Dict.setdefault_append k x d)) ->
  y = k \/ In y (map fst d).
Proof.
  induction d as [|[k' v] d IH]; cbn.
  - intros [<-|[]]. now left.
  - destruct (String.eqb k' k); cbn; intros [<-|H]; auto.
    destruct (IH H); auto.
Qed.

Lemma nodup_setdefault k x d :
  NoDup (map fst d) -> NoDup (map fst (Dict.setdefault_append k x d)).
Proof.
  induction d as [|[k' v] d IH]; cbn; intros Hd.
  - constructor; [easy|constructor].
  - inversion_clear Hd as [|? ? Hk Hd'].
    destruct (String.eqb_spec k' k) as [->|Hne]; cbn.
    + now constructor.
    + constructor; [|now apply IH].
      intros [->|Hin]%in_keys_setdefault; [now apply Hne | now apply Hk].
Qed.

(** An entry after [setdefault(k, []).append(x)]: an entry from before,
    or the entry of [k], which ends with [x]. *)
Lemma in_setdefault k x d u refs :
  In (u, refs) (Dict.setdefault_append k x d) ->
  In (u, refs) d
  \/ (u = k /\ exists old, refs = (old ++ [x])%list
                            /\ (old = [] \/ In (k, old) d)).
Proof.
  induction d as [|[k' v] d IH]; cbn.
  - intros [[= <- <-]|[]]. right. split; [reflexivity|]. exists []. auto.
  - destruct (String.eqb_spec k' k) as [->|Hne]; cbn.
    + intros [[= <- <-]|H]; [|auto]. right. split; [reflexivity|].
      exists v. auto.
    + intros [[= <- <-]|H]; [auto|].
      destruct (IH H) as [?|(-> & old & -> & [->|?])]; auto.
      * right. split; [reflexivity|]. exists []. auto.
      * right. split; [reflexivity|]. exists old. auto.
Qed.

End ReportFacts.

Section Runs.
Context {host : Host}.
Variables (self : CrossrefProcessor) (modules : list ApiObject)
          (resolver : option Resolver).
Local Open Scope list_scope.

Lemma process_as_loop :
  run_nodes (fun x => _preprocess_refs self x resolver modules)
    (located modules) initial
  = (docs (modules_after (process self modules resolver)),
     {| unresolved := report (process self modules resolver);
        calls := resolver_calls (process self modules resolver) |},
     raised (process self modules resolver)).
Proof.
  unfold located, process. rewrite visit_flat.
  destruct (visit _ [] modules initial) as [[modules' [u c]] e]. reflexivity.
Qed.

Lemma report_ok_setdefault nodes node name d :
  report_ok nodes d ->
  In node nodes -> doc_of node <> None ->
  Str.forallb_chars ref_char name = true ->
  report_ok nodes (Dict.setdefault_append (dotted node) name d).
Proof.
  intros [Hnd Hd] Hin Hdoc Hname. split.
  - now apply ReportFacts.nodup_setdefault.
  - intros uid refs [H|(-> & old & -> & Hold)]%ReportFacts.in_setdefault.
    + now apply Hd.
    + split; [now destruct old|]. split.
      * apply Forall_app. split; [|now constructor].
        destruct Hold as [->|Hold]; [constructor|]. now apply (Hd _ _ Hold).
      * now exists node.
Qed.

Lemma report_ok_run :
  report_ok (located modules) (report (process self modules resolver)).
Proof.
  pose proof (run_nodes_rel self resolver modules (located modules)
                (fun st st' => report_ok (located modules) (unresolved st) ->
                               report_ok (located modules) (unresolved st')))
    as H.
  specialize (H (fun st Hst => Hst) (fun a b c Hab Hbc Ha => Hbc (Hab Ha))).
  assert (Hstep : forall node content m st,
             In node (located modules) -> doc_of node = Some content ->
             In m (hits (finditer content)) ->
             report_ok (located modules) (unresolved st) ->
             report_ok (located modules)
               (unresolved (snd (handler self resolver modules node m st)))).
  { intros node content m st Hin Hdoc Hm Hst. rewrite handler_spec.
    cbn [snd unresolved].
    destruct (lookup_fails self resolver modules node (lookup_name m));
      [|exact Hst].
    apply report_ok_setdefault; trivial; [now rewrite Hdoc|].
    apply lookup_name_chars. now apply (in_hits_well_formed content). }
  specialize (H Hstep (located modules) (incl_refl _) initial).
  rewrite process_as_loop in H. cbn [fst snd unresolved] in H. apply H.
  split; [constructor|intros uid refs []].
Qed.

(** The [unresolved] dictionary at the end of [process], however it ends:
    every id has one entry, no entry has an empty list, every name in it
    is made of reference characters, and every id is the dot-joined path of
    an object of the forest that has a docstring. *)
Theorem report_is_well_formed :
  let run := process self modules resolver in
  NoDup (map fst (report run))
  /\ forall uid refs,
       In (uid, refs) (report run) ->
       refs <> []
       /\ Forall (fun r => Str.forallb_chars ref_char r = true) refs
       /\ exists node,
            In node (located modules) /\ doc_of node <> None
            /\ uid = dotted node.
Proof. exact report_ok_run. Qed.

(** The calls of a run: each goes to the typed resolver when one is
    configured and to the basic resolver otherwise, never to both kinds in
    one run; and when [process] ends without exception, it has made one
    call for each match of each docstring, in the order of the traversal
    and of the text, whether the same name was looked up before or not. *)
Theorem resolver_calls_follow_the_matches :
  let run := process self modules resolver in
  Forall (call_allowed self resolver) (resolver_calls run)
  /\ (raised run = None ->
      resolver_calls run
      = flat_map (calls_of_node self resolver) (located modules)).
Proof.
  cbn zeta. split.
  - pose proof (run_nodes_rel self resolver modules (located modules)
                  (fun st st' => exists cs,
                     calls st' = calls st ++ cs
                     /\ Forall (call_allowed self resolver) cs)) as H.
    assert (Hrefl : forall st : State, exists cs,
               calls st = calls st ++ cs
               /\ Forall (call_allowed self resolver) cs)
      by (intros st; exists []; split; [now rewrite app_nil_r|constructor]).
    assert (Htrans : forall a b c : State,
               (exists cs, calls b = calls a ++ cs
                           /\ Forall (call_allowed self resolver) cs) ->
               (exists cs, calls c = calls b ++ cs
                           /\ Forall (call_allowed self resolver) cs) ->
               exists cs, calls c = calls a ++ cs
                          /\ Forall (call_allowed self resolver) cs).
    { intros a b c (cs1 & E1 & H1) (cs2 & E2 & H2). exists (cs1 ++ cs2).
      split; [now rewrite E2, E1, app_assoc | now apply Forall_app]. }
    assert (Hstep : forall node content m st,
               In node (located modules) -> doc_of node = Some content ->
               In m (hits (finditer content)) ->
               exists cs,
                 calls (snd (handler self resolver modules node m st))
                 = calls st ++ cs
                 /\ Forall (call_allowed self resolver) cs).
    { intros node content m st _ _ _. rewrite handler_spec. cbn [snd calls].
      eexists. split; [reflexivity|]. unfold lookup_calls.
      destruct (resolver_v2 self) as [r2|] eqn:E2.
      - constructor; [|constructor]. cbn. now rewrite E2.
      - destruct resolver as [r|] eqn:E1; [|constructor].
        constructor; [|constructor]. cbn. now rewrite E2. }
    specialize (H Hrefl Htrans Hstep (located modules) (incl_refl _) initial).
    rewrite process_as_loop in H. cbn [fst snd calls] in H.
    destruct H as (cs & -> & Hcs). exact Hcs.
  - intros He. pose proof process_as_loop as E. rewrite He in E.
    apply run_nodes_complete in E as [E _]. exact E.
Qed.


(** The warning of a run that ends without exception: it is logged
    exactly when some lookup failed, and the number it starts with is the
    number of failed lookups of the whole forest, an occurrence that
    fails twice counting twice. *)
Theorem warning_counts_failed_lookups :
  let run := process self modules resolver in
  let n := List.length (flat_map (failed_of_node self resolver modules)
                          (located modules)) in
  raised run = None ->
  total_refs (report run) = n
  /\ warning run
     = if Nat.eqb n 0 then None
       else Some (Str.of_nat n ++ " cross-reference(s) could not be resolved:"
                  ++ Str.nl
                  ++ Str.join Str.nl (map summary_line (report run)))%string.
Proof.
  cbn zeta. intros He.
  assert (Et : total_refs (report (process self modules resolver))
               = List.length (flat_map (failed_of_node self resolver modules)
                                (located modules))).
  { pose proof process_as_loop as E. rewrite He in E.
    apply run_nodes_complete in E as [_ E]. exact E. }
  split; [exact Et|]. rewrite <- Et.
  pose proof report_ok_run as [_ Hok]. revert He Hok.
  unfold process. destruct (visit _ [] modules initial) as [[modules' st] e].
  cbn [raised report warning]. intros -> Hok.
  destruct (unresolved st) as [|[uid refs] d]; [reflexivity|].
  destruct (Hok uid refs (or_introl eq_refl)) as (Hne & _).
  destruct refs as [|x refs]; [contradiction|]. reflexivity.
Qed.

End Runs.

(** * The further properties on examples *)

Section FurtherExamples.
Local Open Scope list_scope.

Lemma references_stop_at_separators_witness :
  separator (host := ascii_host) " " = true
  /\ finditer (host := ascii_host) "See #Foo. and #Bar()#s"
     = finditer (host := ascii_host) "See #Foo."
       ++ Lit " " :: finditer (host := ascii_host) "and #Bar()#s".
Proof.
  split; [reflexivity|].
  exact (proj1 (references_stop_at_separators (host := ascii_host)
                  "See #Foo." " " "and #Bar()#s" (fun _ => ret EmptyString)
                  initial eq_refl)).
Defined.

Lemma os_path_well_formed :
  well_formed (host := ascii_host)
    {| g_ref := "os.path"; g_parens := Some "()"; g_trailing := Some "#s" |}.
Proof.
  unfold well_formed. cbn. repeat split; auto.
  right. exists "s"%string. auto.
Defined.

Lemma reference_text_is_one_match_witness :
  let m := {| g_ref := "os.path"; g_parens := Some "()";
              g_trailing := Some "#s" |} in
  well_formed (host := ascii_host) m
  /\ finditer (host := ascii_host) "#os.path()#s" = [Hit m].
Proof.
  cbn zeta. split; [exact os_path_well_formed|].
  exact (proj1 (reference_text_is_one_match (host := ascii_host) _
                  os_path_well_formed)).
Defined.


(** An anchor behind a slash or a parenthesis is read as a reference. *)
Example anchor_after_slash_is_a_reference :
  _preprocess_refs (host := ascii_host) {| resolver_v2 := None |}
    (at_root (module_with "https://example.org/#top and [intro](#intro)"))
    None [] initial
  = (Ok (Some "https://example.org/`top` and [intro](`intro`)"),
     {| unresolved := [("pkg", ["top"; "intro"])]; calls := [] |}).
Proof. reflexivity. Qed.

Lemma lookup_name_empty_iff_witness :
  let m := {| g_ref := "."; g_parens := None; g_trailing := None |} in
  In m (hits (finditer (host := ascii_host) "Item #. is missing"))
  /\ (lookup_name m = EmptyString
      <-> g_ref m = "."%string /\ g_parens m = None
          /\ Str.endswith_dot (or_empty (g_trailing m)) = false).
Proof.
  cbn zeta.
  assert (Hin : In {| g_ref := "."; g_parens := None; g_trailing := None |}
                  (hits (finditer (host := ascii_host) "Item #. is missing")))
    by (left; reflexivity).
  split; [exact Hin|].
  exact (lookup_name_empty_iff (host := ascii_host) "Item #. is missing" _ Hin).
Defined.

(** The text [#.] alone: the empty name is looked up and reported, and an
    empty code span is left before the period. *)
Example lone_period_reference :
  let run :=
    process (host := ascii_host) {| resolver_v2 := None |}
      [module_with "Item #. is missing"] (Some blind_resolver) in
  modules_after run = [module_with "Item ``. is missing"]
  /\ map call_ref (resolver_calls run) = [EmptyString]
  /\ report run = [("pkg"%string, [EmptyString])].
Proof. cbn zeta. repeat split; reflexivity. Qed.

Lemma period_moves_behind_suffix_witness :
  let node := at_root (module_with "#Foo.#bar") in
  let self := {| resolver_v2 := None |} in
  Str.forallb_chars (ref_char (host := ascii_host)) "Foo" = true
  /\ Str.forallb_chars (ref_char (host := ascii_host)) "bar" = true
  /\ Str.truthy "bar" = true
  /\ Str.endswith_dot "bar" = false
  /\ obj_docstring (loc_obj node) = Some "#Foo.#bar"%string
  /\ unresolved_everywhere self (Some blind_resolver) [] node "Foo"
  /\ _preprocess_refs (host := ascii_host) self node (Some blind_resolver) []
       initial
     = (Ok (Some "`Foobar`."%string),
        {| unresolved := [("pkg"%string, ["Foo"%string])];
           calls := [CallBasic node "Foo"] |}).
Proof.
  cbn zeta.
  assert (Hu : unresolved_everywhere {| resolver_v2 := None |}
                 (Some blind_resolver) [] (at_root (module_with "#Foo.#bar"))
                 "Foo")
    by (split; [intros r2 [=] | intros r [= <-]; reflexivity]).
  repeat (split; [reflexivity|]). split; [exact Hu|].
  exact (period_moves_behind_suffix (host := ascii_host)
           {| resolver_v2 := None |} (Some blind_resolver) []
           (at_root (module_with "#Foo.#bar")) "Foo" "bar" initial
           eq_refl eq_refl eq_refl eq_refl eq_refl Hu).
Defined.

Lemma warning_counts_failed_lookups_witness :
  let modules :=
    [Obj "pkg" (Some "Uses #Alpha and #Alpha.")
       [Obj "Foo" (Some "See #Foo and #Beta()") []]] in
  let run :=
    process (host := ascii_host) {| resolver_v2 := None |} modules
      (Some foo_resolver) in
  raised run = None
  /\ total_refs (report run) = 3
  /\ warning run
     = Some ("3 cross-reference(s) could not be resolved:" ++ Str.nl
             ++ "  pkg: Alpha, Alpha" ++ Str.nl ++ "  pkg.Foo: Beta")%string.
Proof.
  cbn zeta. split; [reflexivity|].
  exact (warning_counts_failed_lookups (host := ascii_host)
           {| resolver_v2 := None |}
           [Obj "pkg" (Some "Uses #Alpha and #Alpha.")
              [Obj "Foo" (Some "See #Foo and #Beta()") []]]
           (Some foo_resolver) eq_refl).
Defined.

End FurtherExamples.

(** * Exceptions and complete runs *)


Section Order.
Context {host : Host}.
Variables (self : CrossrefProcessor) (resolver : option Resolver)
          (suite : list ApiObject).
Local Open Scope list_scope.

Abbreviation func := (fun x => _preprocess_refs self x resolver suite).

(** The calls made are the first of the calls the matches ask for, and all
    of them when nothing raises. *)
Lemma sub_pieces_calls_prefix node ps : forall st,
  exists cs tail,
    calls (snd (sub_pieces (handler self resolver suite node) ps st))
    = calls st ++ cs
    /\ flat_map (fun m => lookup_calls self resolver node (lookup_name m))
         (hits ps) = cs ++ tail
    /\ (exn_of (fst (sub_pieces (handler self resolver suite node) ps st))
        = None -> tail = []).
Proof.
  induction ps as [|[c|m] ps IH]; intros st.
  - exists [], []. cbn. now rewrite app_nil_r.
  - cbn [sub_pieces hits flat_map app]. unfold bind.
    destruct (IH st) as (cs & tail & E1 & E2 & E3).
    exists cs, tail.
    destruct (sub_pieces _ ps st) as [[o|e] s1]; cbn [fst snd exn_of] in *;
      auto.
  - cbn [sub_pieces hits flat_map app]. unfold bind. rewrite handler_spec.
    fold (hits ps).
    destruct (substitution self resolver suite node m) as [r|e].
    + match goal with |- context [sub_pieces _ ps ?S] => set (s0 := S) end.
      destruct (IH s0) as (cs & tail & E1 & E2 & E3).
      exists (lookup_calls self resolver node (lookup_name m) ++ cs), tail.
      destruct (sub_pieces _ ps s0) as [[o|e] s1]; unfold ret;
        cbn [fst snd exn_of] in *;
        rewrite E1, E2; subst s0; cbn [calls]; rewrite !app_assoc; auto.
    + exists (lookup_calls self resolver node (lookup_name m)),
        (flat_map (fun m0 => lookup_calls self resolver node (lookup_name m0))
           (hits ps)).
      cbn [fst snd exn_of calls]. repeat split. discriminate.
Qed.

Lemma preprocess_calls_prefix node st :
  exists cs tail,
    calls (snd (_preprocess_refs self node resolver suite st)) = calls st ++ cs
    /\ calls_of_node self resolver node = cs ++ tail
    /\ (exn_of (fst (_preprocess_refs self node resolver suite st)) = None ->
        tail = []).
Proof.
  unfold _preprocess_refs, calls_of_node, re_sub. fold (doc_of node).
  destruct (doc_of node) as [content|].
  - unfold bind.
    destruct (sub_pieces_calls_prefix node (finditer content) st)
      as (cs & tail & E1 & E2 & E3).
    exists cs, tail.
    destruct (sub_pieces _ (finditer content) st) as [[o|e] s1];
      cbn [fst snd exn_of] in *; auto.
  - exists [], []. cbn. now rewrite app_nil_r.
Qed.

Lemma run_nodes_calls_prefix ns : forall st,
  exists cs tail,
    calls (snd (fst (run_nodes func ns st))) = calls st ++ cs
    /\ flat_map (calls_of_node self resolver) ns = cs ++ tail
    /\ (snd (run_nodes func ns st) = None -> tail = []).
Proof.
  induction ns as [|node ns IH]; intros st.
  - exists [], []. cbn. now rewrite app_nil_r.
  - cbn [run_nodes flat_map].
    destruct (preprocess_calls_prefix node st) as (cs & tail & E1 & E2 & E3).
    destruct (_preprocess_refs self node resolver suite st) as [[d'|e] s1];
      cbn [fst snd exn_of] in *.
    + rewrite (E3 eq_refl), app_nil_r in E2.
      destruct (IH s1) as (cs' & tail' & F1 & F2 & F3).
      exists (cs ++ cs'), tail'.
      destruct (run_nodes func ns s1) as [[ds s2] e]. cbn [fst snd] in *.
      rewrite F1, E1, E2, F2, !app_assoc. auto.
    + exists cs, (tail ++ flat_map (calls_of_node self resolver) ns).
      rewrite E2, app_assoc. repeat split; [exact E1|discriminate].
Qed.

(** The names recorded for an object: its failed names, under its id. *)
Lemma preprocess_recorded node st d' st1 :
  _preprocess_refs self node resolver suite st = (Ok d', st1) ->
  forall uid,
    Dict.get_list uid (unresolved st1)
    = Dict.get_list uid (unresolved st)
      ++ (if String.eqb (dotted node) uid
          then failed_of_node self resolver suite node else []).
Proof.
  unfold _preprocess_refs, failed_of_node, failed_names, re_sub.
  fold (doc_of node). destruct (doc_of node) as [content|].
  - unfold bind.
    destruct (sub_pieces _ (finditer content) st) as [[o|e] s1] eqn:E;
      [|discriminate].
    unfold ret. intros [= _ <-] uid.
    destruct (sub_pieces_report _ _ _ _ _ _ _ _ E) as (Hu & _ & Hk).
    destruct (String.eqb_spec (dotted node) uid) as [<-|Hne]; [exact Hu|].
    unfold Dict.get_list. rewrite (Hk uid) by congruence.
    now rewrite app_nil_r.
  - unfold ret. intros [= _ <-] uid.
    now destruct (String.eqb (dotted node) uid); rewrite app_nil_r.
Qed.

Lemma run_nodes_recorded ns : forall st ds st',
  run_nodes func ns st = (ds, st', None) ->
  forall uid,
    Dict.get_list uid (unresolved st')
    = Dict.get_list uid (unresolved st)
      ++ failed_under self resolver suite uid ns.
Proof.
  unfold failed_under. induction ns as [|node ns IH]; intros st ds st'.
  - cbn. intros [= _ <-] uid. now rewrite app_nil_r.
  - cbn [run_nodes flat_map].
    destruct (_preprocess_refs self node resolver suite st) as [[d'|x] s1] eqn:E;
      [|discriminate].
    destruct (run_nodes func ns s1) as [[ds1 s2] e1] eqn:E1.
    intros [= _ <- ->] uid.
    now rewrite (IH _ _ _ E1 uid), (preprocess_recorded _ _ _ _ E uid), app_assoc.
Qed.

Lemma fallback_text_code_span m : fallback_text m = code_span m.
Proof.
  unfold fallback_text, code_span, inline_code, text_of.
  destruct (has_trailing_dot (token_of m)); cbn [append];
    now rewrite ?StrFacts.append_empty, !StrFacts.append_assoc.
Qed.

(** The text of a docstring after a run without exception, with the
    matches whose lookup fails written out. *)
Lemma rewritten_render node content :
  rewritten self resolver suite node content
  = render_with
      (fun m =>
         if lookup_fails self resolver suite node (lookup_name m)
         then code_span m
         else piece_text self resolver suite node (Hit m))
      content.
Proof.
  unfold rewritten, render_with.
  induction (finditer content) as [|[c|m] ps IH]; [reflexivity| |];
    cbn [fold_right]; rewrite IH; [reflexivity|]. f_equal.
  destruct (lookup_fails self resolver suite node (lookup_name m)) eqn:E;
    [|reflexivity].
  cbn [piece_text]. rewrite (lookup_fails_fallback _ _ _ _ _ E).
  apply fallback_text_code_span.
Qed.

End Order.

Section Propagation.
Context {host : Host}.
Variables (self : CrossrefProcessor) (modules : list ApiObject)
          (resolver : option Resolver).
Local Open Scope list_scope.

(** The calls of a run are the first of the calls the references of the
    forest ask for, and all of them when the run does not raise. *)
Lemma process_calls_prefix :
  exists tail,
    flat_map (calls_of_node self resolver) (located modules)
    = resolver_calls (process self modules resolver) ++ tail
    /\ (raised (process self modules resolver) = None -> tail = []).
Proof.
  pose proof (process_as_loop self modules resolver) as E.
  destruct (run_nodes_calls_prefix self resolver modules (located modules)
              initial) as (cs & tail & E1 & E2 & E3).
  rewrite E in E1, E3. cbn [fst snd calls initial app] in E1, E3.
  exists tail. now rewrite E1.
Qed.

Lemma process_log :
  match raised (process self modules resolver) with
  | None => all_return self resolver modules
              (resolver_calls (process self modules resolver))
  | Some x => ends_raising self resolver modules x
                (resolver_calls (process self modules resolver))
  end.
Proof.
  unfold process.
  pose proof (visit_log self resolver modules modules [] initial) as Hlog.
  destruct (visit _ [] modules initial) as [[modules' st] e].
  cbn [fst snd raised resolver_calls] in *.
  destruct Hlog as (cs & Ecs & Hcs). cbn in Ecs. now rewrite Ecs.
Qed.

(** The docstrings and the report of a run that does not raise. *)
Lemma process_complete :
  raised (process self modules resolver) = None ->
  docs (modules_after (process self modules resolver))
  = map (fun node =>
           option_map
             (render_with
                (fun m =>
                   if lookup_fails self resolver modules node (lookup_name m)
                   then code_span m
                   else piece_text self resolver modules node (Hit m)))
             (doc_of node))
      (located modules)
  /\ forall uid,
       Dict.get_list uid (report (process self modules resolver))
       = failed_under self resolver modules uid (located modules).
Proof.
  intros He. pose proof (process_as_loop self modules resolver) as E.
  rewrite He in E. split.
  - destruct (run_nodes_docs _ _ _ _ _ _ _ _ E) as (k & -> & Hk & _).
    rewrite (Hk eq_refl).
    rewrite <- (length_map (rewritten_doc self resolver modules)) at 1.
    rewrite <- (length_map doc_of (located modules)).
    rewrite firstn_all, skipn_all, app_nil_r.
    apply map_ext. intros node. unfold rewritten_doc.
    destruct (doc_of node) as [content|]; [|reflexivity].
    cbn [option_map]. f_equal. apply rewritten_render.
  - intros uid.
    exact (run_nodes_recorded self resolver modules _ _ _ _ E uid).
Qed.


End Propagation.

Section NoResolver.
Context {host : Host}.
Local Open Scope list_scope.

(** Without any resolver [process] raises nothing and calls nothing, and
    every reference of every docstring becomes inline code: its text
    between backquotes, with the period taken off it behind. The report
    holds, under the dot-joined path of every object, the names of all
    the references of its docstring, in the order of the text. So a
    docstring that is one reference, [#] name [()] [#suffix], becomes
    that inline code, and its name is the only one reported. *)
Theorem no_resolver_all_fallback modules :
  let self := {| resolver_v2 := None |} in
  let run := process self modules None in
  raised run = None
  /\ resolver_calls run = []
  /\ docs (modules_after run)
     = map (option_map (render_with code_span)) (docs modules)
  /\ (forall uid,
        Dict.get_list uid (report run)
        = flat_map
            (fun node =>
               if String.eqb (dotted node) uid
               then match doc_of node with
                    | Some content => map lookup_name (hits (finditer content))
                    | None => []
                    end
               else [])
            (located modules))
  /\ forall n m,
       well_formed m ->
       let run1 := process self [Obj n (Some (group0 m)) []] None in
       modules_after run1 = [Obj n (Some (code_span m)) []]
       /\ report run1 = [(n, [lookup_name m])].
Proof.
  cbn zeta. set (self := {| resolver_v2 := None |}).
  assert (Hcalls : flat_map (calls_of_node self None) (located modules) = []).
  { induction (located modules) as [|node ns IH]; [reflexivity|].
    cbn [flat_map]. rewrite IH, app_nil_r. unfold calls_of_node.
    destruct (doc_of node) as [content|]; [|reflexivity].
    induction (hits (finditer content)) as [|m ms IHm]; [reflexivity|].
    exact IHm. }
  destruct (process_calls_prefix self modules None) as (tail & Etail & _).
  rewrite Hcalls in Etail. symmetry in Etail.
  apply app_eq_nil in Etail as [Ecalls _].
  pose proof (process_log self modules None) as Hlog. rewrite Ecalls in Hlog.
  assert (He : raised (process self modules None) = None).
  { destruct (raised (process self modules None)) as [x|]; [|reflexivity].
    destruct Hlog as (cs0 & c & E & _). now destruct cs0. }
  destruct (process_complete self modules None He) as [Hdocs Hrep].
  split; [exact He|]. split; [exact Ecalls|]. split; [|split].
  - rewrite Hdocs, <- (docs_located [] modules), map_map. reflexivity.
  - intros uid. rewrite Hrep. unfold failed_under. apply flat_map_ext.
    intros node. destruct (String.eqb (dotted node) uid); [|reflexivity].
    unfold failed_of_node, failed_names.
    destruct (doc_of node) as [content|]; [|reflexivity]. f_equal.
    induction (hits (finditer content)) as [|m ms IHm]; [reflexivity|].
    cbn [filter].
    change (lookup_fails self None modules node (lookup_name m)) with true.
    cbn [map]. now rewrite IHm.
  - intros n m Hm. unfold process. cbn [visit visit_obj app].
    unfold _preprocess_refs, re_sub. cbn [loc_obj obj_docstring].
    rewrite (finditer_group0 m Hm). cbn [sub_pieces]. unfold bind.
    rewrite handler_spec. unfold ret.
    cbn [substitution lookup_fails lookup_calls resolver_v2 self initial
         unresolved calls Dict.setdefault_append dotted loc_path Str.join
         String.concat modules_after report app].
    rewrite StrFacts.append_empty, fallback_text_code_span. now split.
Qed.

End NoResolver.

Section RunExamples.
Local Open Scope list_scope.


Lemma no_resolver_all_fallback_witness :
  let modules :=
    [Obj "pkg" (Some "See #Foo. and #os.path#join()")
       [Obj "run" None []; Obj "Foo" (Some "# Title of #Bar()") []]] in
  let run :=
    process (host := ascii_host) {| resolver_v2 := None |} modules None in
  raised run = None
  /\ resolver_calls run = []
  /\ docs (modules_after run)
     = [Some "See `Foo`. and `os.pathjoin`()"; None;
        Some "# Title of `Bar()`"]
  /\ Dict.get_list "pkg" (report run) = ["Foo"; "os.path"]
  /\ Dict.get_list "pkg.Foo" (report run) = ["Bar"]
  /\ Dict.get_list "pkg.run" (report run) = [].
Proof.
  cbn zeta.
  pose proof (no_resolver_all_fallback (host := ascii_host)
                [Obj "pkg" (Some "See #Foo. and #os.path#join()")
                   [Obj "run" None [];
                    Obj "Foo" (Some "# Title of #Bar()") []]]) as H.
  cbv zeta in H. destruct H as (H1 & H2 & H3 & H4 & _).
  split; [exact H1|]. split; [exact H2|].
  split; [etransitivity; [exact H3|vm_compute; reflexivity]|].
  split; [etransitivity; [exact (H4 "pkg")|vm_compute; reflexivity]|].
  split; (etransitivity; [apply H4|vm_compute; reflexivity]).
Defined.

End RunExamples.
